(** * secrethub-cli: the template package [internals/tpl] and the
      environment-file logic of [internals/secrethub/run.go]

    A shallow embedding of the delimiter parser, of [Template.Inject] and
    [Template.Keys] (all from [internals/tpl/template.go]), and of the
    line dialect, the value normalizer and the template-variable check of
    the [run] command, with the properties the specification states about
    them.

    Modelling conventions.
    - A Go [string] is a Rocq [string]; a character of the Rocq string
      stands for one UTF-8 sequence of the Go string (for ASCII text: one
      byte), which is the unit [strings.SplitN] cuts at when its separator
      is empty.
    - A Go function returning [(T, error)] returns a [result T]; a run-time
      panic (index out of range) is the third constructor.
    - A Go [map[string]string] is a [gmap string string], a
      [map[string]struct{}] a [gset string].  The order in which [range]
      visits a map is not fixed by Go: it is a parameter [range_keys]. *)

From Stdlib Require Import Ascii String ZArith.
From stdpp Require Import base option list gmap sets strings.

#[local] Set Warnings "-clear-no-such-hyp".

Local Open Scope Z_scope.
Local Open Scope nat_scope.

(** ** Errors and results *)

(** The error values the two packages build.  [errors_New] is Go's
    [errors.New]; the others are the [errio] codes declared at the top of
    [template.go] and used by the tests of the [run] command. *)
Inductive error : Type :=
  | ErrKeyNotFound (k : string)          (* tpl: "no value supplied for key %s" *)
  | ErrTagNotClosed (delim : string)     (* tpl: "missing closing delimiter '%s'" *)
  | ErrTemplate (line : Z) (e : error)   (* run: a template error with its line *)
  | ErrInvalidTemplateVar (k : string)   (* run: an alias that is no identifier *)
  | errors_New (msg : string).

Inductive result (A : Type) : Type :=
  | OK (a : A)
  | Err (e : error)
  | Panic.
Arguments OK {A} a.
Arguments Err {A} e.
Arguments Panic {A}.

Definition bind {A B : Type} (r : result A) (k : A → result B) : result B :=
  match r with
  | OK a => k a
  | Err e => Err e
  | Panic => Panic
  end.

Notation "'let*' x ':=' r 'in' k" := (bind r (fun x => k))
  (at level 10, x name, r at level 100, k at level 200).

(** ** The part of Go's [strings] package the sources call *)
Module GoStrings.

(** [strings.HasPrefix(s, prefix)]. *)
Fixpoint HasPrefix (s prefix : string) {struct prefix} : bool :=
  match prefix, s with
  | EmptyString, _ => true
  | String a prefix', String b s' =>
      if decide (a = b) then HasPrefix s' prefix' else false
  | String _ _, EmptyString => false
  end.

(** [strings.Index(s, sep)]: the position of the first occurrence of
    [sep] in [s]; Go's [-1] is [None]. *)
Fixpoint Index (s sep : string) : option nat :=
  if HasPrefix s sep then Some 0
  else match s with
       | EmptyString => None
       | String _ s' => S <$> Index s' sep
       end.

(** The slices [s[:m]] and [s[m:]]. *)
Fixpoint slice_to (m : nat) (s : string) : string :=
  match m, s with
  | S m', String c s' => String c (slice_to m' s')
  | _, _ => EmptyString
  end.

Fixpoint slice_from (m : nat) (s : string) : string :=
  match m, s with
  | S m', String _ s' => slice_from m' s'
  | _, _ => s
  end.

(** [explode(s, 2)], what [SplitN] does with an empty separator: no
    piece for the empty string, the string itself when it is one
    character, else the first character and the rest. *)
Definition explode_2 (s : string) : list string :=
  match s with
  | EmptyString => []
  | String _ EmptyString => [s]
  | String c rest => [String c EmptyString; rest]
  end.

(** [strings.SplitN(s, sep, 2)], the only way the sources call it: cut
    at the first occurrence of [sep], if there is one. *)
Definition SplitN_2 (s sep : string) : list string :=
  match sep with
  | EmptyString => explode_2 s
  | _ =>
      match Index s sep with
      | None => [s]
      | Some m => [slice_to m s; slice_from (m + String.length sep) s]
      end
  end.

(** [strings.HasSuffix(s, suffix)]: [len(s) >= len(suffix)] and
    [s[len(s)-len(suffix):] == suffix]. *)
Definition HasSuffix (s suffix : string) : bool :=
  (String.length suffix <=? String.length s) &&
  bool_decide (slice_from (String.length s - String.length suffix) s = suffix).

(** [strings.Contains(s, substr)]. *)
Definition Contains (s substr : string) : bool :=
  match Index s substr with Some _ => true | None => false end.

(** Is character [c] one of [cutset]? *)
Fixpoint in_cutset (c : ascii) (cutset : string) : bool :=
  match cutset with
  | EmptyString => false
  | String d cutset' => if decide (c = d) then true else in_cutset c cutset'
  end.

(** [strings.TrimLeft], [strings.TrimRight] and [strings.Trim]. *)
Fixpoint TrimLeft (s cutset : string) : string :=
  match s with
  | EmptyString => EmptyString
  | String c s' => if in_cutset c cutset then TrimLeft s' cutset else s
  end.

Fixpoint TrimRight (s cutset : string) : string :=
  match s with
  | EmptyString => EmptyString
  | String c s' =>
      match TrimRight s' cutset with
      | EmptyString => if in_cutset c cutset then EmptyString
                       else String c EmptyString
      | t => String c t
      end
  end.

Definition Trim (s cutset : string) : string :=
  TrimLeft (TrimRight s cutset) cutset.

(** The tables of Go's [unicode] package that [strings.ToUpper] and
    [strings.TrimSpace] read, on the characters of the model:
    [unicode.ToUpper] and [unicode.IsSpace]. *)
Record unicode : Type := Unicode {
  ToUpper_rune : ascii → ascii;
  IsSpace : ascii → bool
}.

(** [strings.ToUpper(s)]: every character mapped to its upper case. *)
Fixpoint ToUpper (u : unicode) (s : string) : string :=
  match s with
  | EmptyString => EmptyString
  | String c s' => String (ToUpper_rune u c) (ToUpper u s')
  end.

(** [strings.TrimLeftFunc], [strings.TrimRightFunc] and
    [strings.TrimSpace(s)], which trims the characters [unicode.IsSpace]
    holds of. *)
Fixpoint TrimLeftFunc (s : string) (f : ascii → bool) : string :=
  match s with
  | EmptyString => EmptyString
  | String c s' => if f c then TrimLeftFunc s' f else s
  end.

Fixpoint TrimRightFunc (s : string) (f : ascii → bool) : string :=
  match s with
  | EmptyString => EmptyString
  | String c s' =>
      match TrimRightFunc s' f with
      | EmptyString => if f c then EmptyString else String c EmptyString
      | t => String c t
      end
  end.

Definition TrimSpace (u : unicode) (s : string) : string :=
  TrimRightFunc (TrimLeftFunc s (IsSpace u)) (IsSpace u).

(** [strings.Join(elems, sep)]. *)
Fixpoint Join (elems : list string) (sep : string) : string :=
  match elems with
  | [] => EmptyString
  | [e] => e
  | e :: elems' => e +:+ sep +:+ Join elems' sep
  end.

(** [strings.Replace(s, old, new, -1)] for a non-empty [old]: the
    occurrences of [old] are taken from left to right, one after the end
    of the other; [skip] counts the characters of an occurrence still to
    pass. *)
Fixpoint replace_from (s old new : string) (skip : nat) : string :=
  match s with
  | EmptyString => EmptyString
  | String c s' =>
      match skip with
      | S skip' => replace_from s' old new skip'
      | 0 =>
          if HasPrefix s old
          then new +:+ replace_from s' old new (String.length old - 1)
          else String c (replace_from s' old new 0)
      end
  end.

(** [strings.Replace(s, "", new, -1)]: [new] before every character and
    at the end. *)
Fixpoint interleave (s new : string) : string :=
  match s with
  | EmptyString => new
  | String c s' => new +:+ String c (interleave s' new)
  end.

(** [strings.Replace(s, old, new, -1)]. *)
Definition Replace_all (s old new : string) : string :=
  if decide (old = new) then s
  else match old with
       | EmptyString => interleave s new
       | _ => replace_from s old new 0
       end.

(** [strings.Split(s, sep)] for a non-empty [sep]: the pieces between the
    occurrences of [sep], taken as [Replace] takes them; the first piece
    of the result is the one being read. *)
Fixpoint split_from (s sep : string) (skip : nat) : list string :=
  match s with
  | EmptyString => [EmptyString]
  | String c s' =>
      match skip with
      | S skip' => split_from s' sep skip'
      | 0 =>
          if HasPrefix s sep
          then EmptyString :: split_from s' sep (String.length sep - 1)
          else match split_from s' sep 0 with
               | [] => [String c EmptyString]
               | piece :: pieces => String c piece :: pieces
               end
      end
  end.

(** [strings.Split(s, "")]: one piece per character. *)
Fixpoint explode (s : string) : list string :=
  match s with
  | EmptyString => []
  | String c s' => String c EmptyString :: explode s'
  end.

(** [strings.Split(s, sep)]. *)
Definition Split (s sep : string) : list string :=
  match sep with
  | EmptyString => explode s
  | _ => split_from s sep 0
  end.

End GoStrings.

(** ** Package [tpl] ([internals/tpl/template.go]) *)
Module tpl.
Import GoStrings.

(** [type parser struct { startDelim, endDelim string }]. *)
Record parser : Type := NewParser { startDelim : string; endDelim : string }.

(** A node is a plain text value ([type val string]) or a key that is
    mapped to a value ([type key string]). *)
Inductive node : Type :=
  | val (v : string)
  | key (s : string).

Global Instance node_eq_dec : EqDecision node.
Proof. solve_decision. Defined.

Record template : Type := Template { nodes : list node }.

(** [val.inject] and [key.inject]. *)
Definition inject (n : node) (replacements : gmap string string) : result string :=
  match n with
  | val v => OK v
  | key s =>
      match replacements !! s with
      | None => Err (ErrKeyNotFound s)
      | Some data => OK data
      end
  end.

(** The loop of [template.Inject], [res] being its accumulator. *)
Fixpoint Inject_loop (ns : list node) (replacements : gmap string string)
    (res : string) : result string :=
  match ns with
  | [] => OK res
  | n :: ns' =>
      match inject n replacements with
      | OK injected => Inject_loop ns' replacements (res +:+ injected)
      | Err e => Err e
      | Panic => Panic
      end
  end.

Definition Inject (t : template) (replacements : gmap string string) : result string :=
  Inject_loop (nodes t) replacements "".

(** The first loop of [template.Keys]: the set of the keys met. *)
Fixpoint Keys_set (ns : list node) (set : gset string) : gset string :=
  match ns with
  | [] => set
  | key s :: ns' => Keys_set ns' ({[ s ]} ∪ set)
  | val _ :: ns' => Keys_set ns' set
  end.

(** [template.Keys]: the second loop copies the set into a slice in the
    order [range] visits it. *)
Definition Keys (range_keys : gset string → list string) (t : template) : list string :=
  range_keys (Keys_set (nodes t) ∅).

(** One activation of the recursive helper [parser.parse]: it either
    returns, or calls itself once on [rest] and, if that call returns
    [tail] without error, returns [n :: tail]. *)
Inductive step : Type :=
  | Return (r : result (list node))
  | Recurse (n : node) (rest : string).

Definition parse_step (p : parser) (raw : string) : step :=
  match SplitN_2 raw (startDelim p) with
  | [] => Return Panic                        (* parts[0] of an empty slice *)
  | [part0] =>
      if 0 <? String.length part0 then Return (OK [val part0])
      else Return (OK [])
  | part0 :: part1 :: _ =>
      if 0 <? String.length part0
      then Recurse (val part0) (startDelim p +:+ part1)
      else
        match SplitN_2 part1 (endDelim p) with
        | [] => Return Panic                  (* parts[0] of an empty slice *)
        | [_] => Return (Err (ErrTagNotClosed (endDelim p)))
        | k0 :: rest :: _ => Recurse (key (Trim k0 " ")) rest
        end
  end.

(** [parser.parse], with the depth of the recursion bounded by [fuel];
    [None] when the bound is reached. *)
Fixpoint parse_fuel (p : parser) (fuel : nat) (raw : string)
    : option (result (list node)) :=
  match fuel with
  | 0 => None
  | S fuel' =>
      match parse_step p raw with
      | Return r => Some r
      | Recurse n rest =>
          match parse_fuel p fuel' rest with
          | None => None
          | Some r => Some (let* tail := r in OK (n :: tail))
          end
      end
  end.

(** [parser.parse]: one more unit of fuel than [raw] has characters is
    always enough (lemma [parse_fuel_enough]), so the last case is never
    taken. *)
Definition parse (p : parser) (raw : string) : result (list node) :=
  match parse_fuel p (S (String.length raw)) raw with
  | Some r => r
  | None => Panic
  end.

(** [parser.Parse]. *)
Definition Parse (p : parser) (raw : string) : result template :=
  let* nodes := parse p raw in OK (Template nodes).

End tpl.

(** ** Package [secrethub]: the environment file of the [run] command

    Of this package the development has the tests of [run.go]
    ([internals/secrethub/run_test.go]), not [run.go] itself: its
    functions are modelled from the specification, and checked against
    the cases of the tests at the end of the file. *)
Module secrethub.
Import GoStrings.

Definition squote : ascii := "'"%char.
Definition dquote : ascii := "034"%char.
Definition tab : ascii := "009"%char.
Definition newline : ascii := "010"%char.

(** Modelled from the spec: the whitespace of the line dialect of
    [parseEnv], spaces and tabs (section 4.2). *)
Definition whitespace : string := String " "%char (String tab EmptyString).

(** Modelled from the spec: [trimQuotes] (the Value Normalizer, section
    4.3), absent from the sources.  A string of at least two characters
    that starts and ends with ['], or starts and ends with a double
    quote, loses that outermost pair; every other string is returned as it
    is. *)
Definition trimQuotes (s : string) : string :=
  let q1 := String squote EmptyString in
  let q2 := String dquote EmptyString in
  if (2 <=? String.length s) &&
     ((HasPrefix s q1 && HasSuffix s q1) || (HasPrefix s q2 && HasSuffix s q2))
  then slice_to (String.length s - 2) (slice_from 1 s)
  else s.

(** [type envvar struct { key, value string; lineNumber int }], as the
    tests build it. *)
Record envvar : Type := Envvar { key : string; value : string; lineNumber : Z }.

(** Modelled from the spec: the first step of [parseEnv], the input split
    into lines at every newline character (section 4.2). *)
Fixpoint lines (raw : string) : list string :=
  match raw with
  | EmptyString => [EmptyString]
  | String c raw' =>
      if decide (c = newline) then EmptyString :: lines raw'
      else match lines raw' with
           | [] => [String c EmptyString]
           | l :: ls => String c l :: ls
           end
  end.

Definition ErrNotKeyValue : error :=
  errors_New "template is not formatted as key=value pairs".

(** Modelled from the spec: the loop of [parseEnv] over the lines (the
    line dialect, section 4.2), absent from the sources; [i] is the number
    of the first line of [ls].  Empty lines, lines of whitespace only and
    lines whose first character after leading whitespace is [#] are
    skipped; another line is cut at its first [=], and fails the whole
    parse when it has none. *)
Fixpoint parseEnv_lines (ls : list string) (i : Z) : result (list envvar) :=
  match ls with
  | [] => OK []
  | line :: ls' =>
      let content := TrimLeft line whitespace in
      if bool_decide (content = EmptyString) || HasPrefix content "#"
      then parseEnv_lines ls' (i + 1)%Z
      else
        match SplitN_2 line "=" with
        | k :: v :: _ =>
            let* tail := parseEnv_lines ls' (i + 1)%Z in
            OK (Envvar (Trim k whitespace)
                       (trimQuotes (Trim v whitespace)) i :: tail)
        | _ => Err (ErrTemplate i ErrNotKeyValue)
        end
  end.

(** Modelled from the spec: [parseEnv], absent from the sources. *)
Definition parseEnv (raw : string) : result (list envvar) :=
  parseEnv_lines (lines raw) 1%Z.

(** Modelled from the spec: the identifier pattern
    [^[A-Za-z_][A-Za-z0-9_]*$] of step 1 of [NewEnv] (section 4.4); the
    function that matches it is absent from the sources. *)
Definition is_letter (c : ascii) : bool :=
  let n := nat_of_ascii c in
  ((65 <=? n) && (n <=? 90)) || ((97 <=? n) && (n <=? 122)).

Definition is_digit (c : ascii) : bool :=
  let n := nat_of_ascii c in (48 <=? n) && (n <=? 57).

Definition is_underscore (c : ascii) : bool := bool_decide (c = "_"%char).

Fixpoint identifier_tail (s : string) : bool :=
  match s with
  | EmptyString => true
  | String c s' =>
      (is_letter c || is_digit c || is_underscore c) && identifier_tail s'
  end.

Definition valid_identifier (s : string) : bool :=
  match s with
  | EmptyString => false
  | String c s' => (is_letter c || is_underscore c) && identifier_tail s'
  end.

(** Modelled from the spec: the check of step 1 of [NewEnv], absent from
    the sources; the first key, in the order given, that is no
    identifier. *)
Fixpoint first_invalid (ks : list string) : option string :=
  match ks with
  | [] => None
  | k :: ks' => if valid_identifier k then first_invalid ks' else Some k
  end.

(** Modelled from the spec: what section 4.4 leaves to the implementation
    of [NewEnv] or to collaborators, the choice of the dialect, the
    decoder of the mapping dialect, and the two delimiter pairs. *)
Record dialects : Type := Dialects {
  isMapping : string → bool;
  parseYML : string → result (list envvar);
  varParser : tpl.parser;
  secretParser : tpl.parser
}.

(** Modelled from the spec: the wrapping of an error of [NewEnv] with the
    number of its line, when the dialect knows it (the mapping dialect
    gives [-1]). *)
Definition with_line {A : Type} (line : Z) (r : result A) : result A :=
  match r with
  | Err e => if (line <? 0)%Z then Err e else Err (ErrTemplate line e)
  | _ => r
  end.

(** Modelled from the spec: steps 4 to 6 of [NewEnv], absent from the
    sources; every value has its template variables replaced, is compiled
    with the secret delimiters, and is stored under its key, a later entry
    replacing an earlier one. *)
Fixpoint compile_vars (d : dialects) (templateVars : gmap string string)
    (vars : list envvar) (env : gmap string tpl.template)
    : result (gmap string tpl.template) :=
  match vars with
  | [] => OK env
  | v :: vars' =>
      let* t := with_line (lineNumber v) (tpl.Parse (varParser d) (value v)) in
      let* injected := with_line (lineNumber v) (tpl.Inject t templateVars) in
      let* compiled := with_line (lineNumber v) (tpl.Parse (secretParser d) injected) in
      compile_vars d templateVars vars' (<[key v := compiled]> env)
  end.

(** Modelled from the spec: [NewEnv] (the Environment Resolver, section
    4.4), absent from the sources.  Step 1 checks the names of the
    template variables, in the order [range] visits the map, and fails at
    the first that is no identifier; only then is [raw] parsed. *)
Definition NewEnv (range_keys : gset string → list string) (d : dialects)
    (raw : string) (templateVars : gmap string string)
    : result (gmap string tpl.template) :=
  match first_invalid (range_keys (dom templateVars)) with
  | Some k => Err (ErrInvalidTemplateVar k)
  | None =>
      let* vars := (if isMapping d raw then parseYML d raw else parseEnv raw) in
      compile_vars d templateVars vars ∅
  end.

End secrethub.

(** ** Package [cli] ([internals/cli/env.go]): flags and the environment
    variables that configure them *)
Module cli.
Import GoStrings.

(** [DefaultEnvSeparator] and [DefaultCommandDelimiters]. *)
Definition DefaultEnvSeparator : string := "_".
Definition DefaultCommandDelimiters : list string := [" "; "-"].

(** [formatName]: the delimiters of [name] replaced by the separator, one
    delimiter after the other, the prefix put in front, all in upper
    case. *)
Definition formatName (u : unicode) (name prefix separator : string)
    (delimiters : list string) : string :=
  let name := foldl (λ name delim, Replace_all name delim separator) name delimiters in
  if decide (prefix = "") then ToUpper u name
  else ToUpper u (Join [prefix; name] separator).

(** [splitVar]: key, value and whether the key starts with the prefix. *)
Definition splitVar (u : unicode) (prefix separator envVar : string)
    : string * string * bool :=
  let envVar := TrimSpace u envVar in
  match Split envVar "=" with
  | [split0; split1] =>
      let prefix := ToUpper u prefix +:+ separator in
      (split0, split1, HasPrefix (ToUpper u split0) prefix)
  | _ => (EmptyString, EmptyString, false)
  end.

(** [type App struct], without the [cobra.Command] it wraps. *)
Record App : Type := mkApp {
  name : string;
  delimiters : list string;
  separator : string;
  knownEnvVars : gset string;
  extraEnvVarFuncs : list (string → bool)
}.

(** [NewApp]. *)
Definition NewApp (u : unicode) (name : string) : App :=
  mkApp (formatName u name "" DefaultEnvSeparator DefaultCommandDelimiters)
        DefaultCommandDelimiters DefaultEnvSeparator ∅ [].

Definition set_knownEnvVars (a : App) (known : gset string) : App :=
  mkApp (name a) (delimiters a) (separator a) known (extraEnvVarFuncs a).

(** [App.registerEnvVar] and [App.unregisterEnvVar]. *)
Definition registerEnvVar (u : unicode) (a : App) (name : string) : App :=
  set_knownEnvVars a ({[ ToUpper u name ]} ∪ knownEnvVars a).

Definition unregisterEnvVar (u : unicode) (a : App) (name : string) : App :=
  set_knownEnvVars a (knownEnvVars a ∖ {[ ToUpper u name ]}).

(** [App.ExtraEnvVarFunc]; [None] is Go's [nil]. *)
Definition ExtraEnvVarFunc (a : App) (f : option (string → bool)) : App :=
  match f with
  | Some f => mkApp (name a) (delimiters a) (separator a) (knownEnvVars a)
                    (extraEnvVarFuncs a ++ [f])
  | None => a
  end.

(** [App.isExtraEnvVar]. *)
Fixpoint isExtraEnvVar_loop (checks : list (string → bool)) (key : string) : bool :=
  match checks with
  | [] => false
  | check :: checks' => if check key then true else isExtraEnvVar_loop checks' key
  end.

Definition isExtraEnvVar (a : App) (key : string) : bool :=
  isExtraEnvVar_loop (extraEnvVarFuncs a) key.

Definition ErrNotRecognized (key : string) : error :=
  errors_New ("environment variable set, but not recognized: " +:+ key).

(** [App.CheckStrictEnv], the loop over [os.Environ()], here [environ];
    [None] is the [nil] error. *)
Fixpoint CheckStrictEnv_loop (u : unicode) (a : App) (environ : list string)
    : option error :=
  match environ with
  | [] => None
  | envVar :: environ' =>
      let '(key, _, matches) := splitVar u (name a) (separator a) envVar in
      if matches then
        let key := ToUpper u key in
        if negb (bool_decide (key ∈ knownEnvVars a) || isExtraEnvVar a key)
        then Some (ErrNotRecognized key)
        else CheckStrictEnv_loop u a environ'
      else CheckStrictEnv_loop u a environ'
  end.

Definition CheckStrictEnv (u : unicode) (environ : list string) (a : App)
    : option error :=
  CheckStrictEnv_loop u a environ.

(** [type Flag struct]: of the [pflag.Flag] it wraps, the name and the
    default value; the [App] it points to is passed along with it. *)
Record Flag : Type := mkFlag {
  Name : string;
  DefValue : string;
  envVar : string
}.

(** [Flag.Envar]; [getenv] is [os.Getenv]. *)
Definition Envar (u : unicode) (getenv : string → string)
    (a : App) (f : Flag) (name : string) : App * Flag :=
  let name := ToUpper u name in
  let a := if decide (envVar f = "") then a else unregisterEnvVar u a (envVar f) in
  let a := registerEnvVar u a name in
  (a, mkFlag (Name f) (getenv name) name).

(** [Flag.NoEnvar]. *)
Definition NoEnvar (u : unicode) (a : App) (f : Flag) : App * Flag :=
  let a := if decide (envVar f = "") then a else unregisterEnvVar u a (envVar f) in
  (a, mkFlag (Name f) "" "").

(** [Flag.Default]. *)
Definition Default (f : Flag) (val : string) : Flag :=
  if decide (DefValue f = "") then mkFlag (Name f) val (envVar f) else f.

(** [App.Flag]. *)
Definition App_Flag (u : unicode) (getenv : string → string)
    (a : App) (name : string) : App * Flag :=
  let envVar := formatName u name (cli.name a) (separator a) (delimiters a) in
  let a := registerEnvVar u a envVar in
  Envar u getenv a (mkFlag name "" envVar) envVar.

(** [CommandClause.Flag]; [fullCommand] is what [cmd.FullCommand()]
    returns, the arguments of the process joined by spaces. *)
Definition CommandClause_Flag (u : unicode) (fullCommand : string)
    (a : App) (name : string) : App * Flag :=
  let fullCmd := Replace_all fullCommand " " (separator a) in
  let prefix := formatName u fullCmd (cli.name a) (separator a) (delimiters a) in
  let envVar := formatName u name prefix (separator a) (delimiters a) in
  (registerEnvVar u a envVar, mkFlag name "" envVar).

End cli.

Import GoStrings tpl.

(** ** Notions the statements are written with *)

(** The only occurrence of [sep] in [pre +:+ sep] is the one at its end:
    in a text that continues with [sep] after [pre], that [sep] is the
    first one. *)
Definition only_at_end (sep pre : string) : Prop :=
  ∀ u v, pre +:+ sep = u +:+ sep +:+ v → v = "".

(** The node of the text before a placeholder: none when it is empty. *)
Definition lit_nodes (lit : string) : list node :=
  match lit with
  | EmptyString => []
  | _ => [val lit]
  end.

(** [closed p text ns]: [text] is a sequence of closed placeholders, each
    after some (possibly empty) literal text that holds no start
    delimiter, each ending at the first end delimiter after its start
    delimiter; [ns] are the nodes they stand for. *)
Inductive closed (p : parser) : string → list node → Prop :=
  | closed_nil : closed p "" []
  | closed_group lit k rest ns :
      only_at_end (startDelim p) lit →
      only_at_end (endDelim p) k →
      closed p rest ns →
      closed p (lit +:+ startDelim p +:+ k +:+ endDelim p +:+ rest)
               (lit_nodes lit ++ key (Trim k " ") :: ns).

(** [n] spaces. *)
Fixpoint spaces (n : nat) : string :=
  match n with
  | 0 => EmptyString
  | S n' => String " "%char (spaces n')
  end.

(** Every character of [s] is a space. *)
Fixpoint all_spaces (s : string) : bool :=
  match s with
  | EmptyString => true
  | String c s' => bool_decide (c = " "%char) && all_spaces s'
  end.

(** What a node emits on injection, when its key is bound. *)
Definition emission (replacements : gmap string string) (n : node) : string :=
  match n with
  | val v => v
  | key s => default "" (replacements !! s)
  end.

(** [s] between two double quotes, and two lines one after the other:
    the strings of the tests that a Rocq literal cannot hold. *)
Definition in_dquotes (s : string) : string :=
  String secrethub.dquote (s +:+ String secrethub.dquote "").

Definition then_line (l1 l2 : string) : string :=
  l1 +:+ String secrethub.newline l2.

Definition tabbed (l1 l2 : string) : string :=
  l1 +:+ String secrethub.tab l2.

(** The dialect of the cases of [TestNewEnv] written in the line dialect:
    template variables between [${] and [}], secrets between [{{] and
    [}}]. *)
Definition line_dialect : secrethub.dialects :=
  secrethub.Dialects (λ _, false) (λ _, Err (errors_New "yaml"))
    (NewParser "${" "}") (NewParser "{{" "}}").

(** The strings of a list, one after the other. *)
Definition concat_strings (l : list string) : string := foldr String.append "" l.

(** Every key of [ns] is bound by [replacements]. *)
Definition all_bound (replacements : gmap string string) (ns : list node) : Prop :=
  ∀ s, key s ∈ ns → is_Some (replacements !! s).

(** The shape of the nodes [Parse] makes: a literal is not empty, holds no
    start delimiter and is not followed by another literal; a key has no
    space at either end and holds no end delimiter. *)
Fixpoint normal (p : parser) (ns : list node) : Prop :=
  match ns with
  | [] => True
  | val v :: ns' =>
      v ≠ "" ∧ Contains v (startDelim p) = false ∧
      (∀ v' ns'', ns' ≠ val v' :: ns'') ∧ normal p ns'
  | key k :: ns' =>
      Trim k " " = k ∧ Contains k (endDelim p) = false ∧ normal p ns'
  end.

(** [substituted p m text out]: [text] is a sequence of closed
    placeholders, each after literal text without start delimiter, and
    [out] is [text] with every placeholder, delimiters included, replaced
    by the value [m] binds to its trimmed key. *)
Inductive substituted (p : parser) (m : gmap string string) : string → string → Prop :=
  | substituted_nil : substituted p m "" ""
  | substituted_group lit k v rest out :
      only_at_end (startDelim p) lit →
      only_at_end (endDelim p) k →
      m !! Trim k " " = Some v →
      substituted p m rest out →
      substituted p m (lit +:+ startDelim p +:+ k +:+ endDelim p +:+ rest)
                      (lit +:+ v +:+ out).

(** One literal node per character. *)
Fixpoint char_nodes (s : string) : list node :=
  match s with
  | EmptyString => []
  | String c s' => val (String c EmptyString) :: char_nodes s'
  end.

(** The tables of [unicode] on the ASCII characters: the letters [a] to
    [z] have an upper case, and tab, line feed, vertical tab, form feed,
    carriage return and space are spaces. *)
Definition ascii_ToUpper (c : ascii) : ascii :=
  let n := nat_of_ascii c in
  if (97 <=? n) && (n <=? 122) then ascii_of_nat (n - 32) else c.

Definition ascii_IsSpace (c : ascii) : bool :=
  let n := nat_of_ascii c in
  ((9 <=? n) && (n <=? 13)) || (n =? 32).

Definition ascii_tables : unicode := Unicode ascii_ToUpper ascii_IsSpace.

(** Character [c] occurs in [s]. *)
Fixpoint has_char (c : ascii) (s : string) : bool :=
  match s with
  | EmptyString => false
  | String d s' => bool_decide (c = d) || has_char c s'
  end.

(** Every variable the application knows is written in upper case. *)
Definition known_in_upper_case (u : unicode) (a : cli.App) : Prop :=
  ∀ k, k ∈ cli.knownEnvVars a → ToUpper u k = k.

(** The strict check lets the entry [e] of the environment pass: it does
    not match the prefix of the application, or its key in upper case is
    a known variable or one of the extra variables. *)
Definition passes (u : unicode) (a : cli.App) (e : string) : bool :=
  let '(k, _, matches) := cli.splitVar u (cli.name a) (cli.separator a) e in
  negb matches || bool_decide (ToUpper u k ∈ cli.knownEnvVars a)
  || cli.isExtraEnvVar a (ToUpper u k).

Lemma bind_OK_id {A} (r : result (list A)) : (let* tail := r in OK ([] ++ tail)) = r.
Proof. by destruct r. Qed.

(** ** Strings: append, length and slices *)
Section string_facts.
Implicit Types (s t u : string) (c : ascii).

Lemma str_app_nil_l s : "" +:+ s = s.
Proof. reflexivity. Qed.

Lemma str_app_cons c s t : String c s +:+ t = String c (s +:+ t).
Proof. reflexivity. Qed.

Lemma str_app_nil_r s : s +:+ "" = s.
Proof. induction s as [|c s IH]; [done|]. by rewrite str_app_cons, IH. Qed.

Lemma str_app_assoc s t u : (s +:+ t) +:+ u = s +:+ (t +:+ u).
Proof. induction s as [|c s IH]; [done|]. by rewrite !str_app_cons, IH. Qed.

Lemma str_length_app s t : String.length (s +:+ t) = String.length s + String.length t.
Proof. induction s as [|c s IH]; [done|]. rewrite str_app_cons. simpl. by rewrite IH. Qed.

Lemma str_length_zero s : String.length s = 0 → s = "".
Proof. by destruct s. Qed.

Lemma str_app_eq_nil s t : s +:+ t = "" → s = "" ∧ t = "".
Proof. destruct s; [done|]. by rewrite str_app_cons. Qed.

(** Two ways of cutting one string: the shorter left part is a prefix of
    the longer. *)
Lemma str_app_eq_app s1 t1 s2 t2 :
  s1 +:+ t1 = s2 +:+ t2 → String.length s1 ≤ String.length s2 →
  ∃ m, s2 = s1 +:+ m ∧ t1 = m +:+ t2.
Proof.
  revert s2. induction s1 as [|c s1 IH]; intros s2 H Hlen.
  - exists s2. by rewrite !str_app_nil_l in *.
  - destruct s2 as [|d s2]; [simpl in Hlen; lia|].
    rewrite !str_app_cons in H. injection H as -> H.
    destruct (IH s2 H) as (m & -> & ->); [simpl in Hlen; lia|].
    by exists m.
Qed.

Lemma slice_to_app s t : slice_to (String.length s) (s +:+ t) = s.
Proof. induction s as [|c s IH]; [by destruct t|]. rewrite str_app_cons. simpl. by rewrite IH. Qed.

Lemma slice_from_app s t : slice_from (String.length s) (s +:+ t) = t.
Proof. induction s as [|c s IH]; [by destruct t|]. by rewrite str_app_cons. Qed.

Lemma slice_to_from m s : slice_to m s +:+ slice_from m s = s.
Proof.
  revert s. induction m as [|m IH]; intros [|c s]; try done.
  simpl. by rewrite str_app_cons, IH.
Qed.

Lemma length_slice_to m s : m ≤ String.length s → String.length (slice_to m s) = m.
Proof.
  revert s. induction m as [|m IH]; intros [|c s] H; simpl in *; try done; try lia.
  rewrite IH; lia.
Qed.

Lemma slice_from_add m n s : slice_from (m + n) s = slice_from n (slice_from m s).
Proof.
  revert s. induction m as [|m IH]; intros s; [done|].
  destruct s as [|c s]; [by destruct n|]. simpl. apply IH.
Qed.

End string_facts.

(** ** [HasPrefix], [Index] and [SplitN] *)
Section search_facts.
Implicit Types (s t u sep : string) (c : ascii).

Lemma HasPrefix_app s t : HasPrefix (s +:+ t) s = true.
Proof.
  induction s as [|c s IH]; [reflexivity|]. rewrite str_app_cons. simpl.
  by case_decide.
Qed.

Lemma HasPrefix_inv s sep : HasPrefix s sep = true → ∃ t, s = sep +:+ t.
Proof.
  revert s. induction sep as [|c sep IH]; intros s H.
  - by exists s.
  - destruct s as [|d s]; [done|]. simpl in H. case_decide; [subst|done].
    destruct (IH s H) as [t ->]. by exists t.
Qed.

(** [strings.Index] gives an occurrence. *)
Lemma Index_Some s sep m :
  Index s sep = Some m →
  s = slice_to m s +:+ sep +:+ slice_from (m + String.length sep) s ∧
  m + String.length sep ≤ String.length s.
Proof.
  revert m. induction s as [|c s IH]; intros m; simpl.
  - destruct (HasPrefix "" sep) eqn:Hp; [|done]. intros [= <-].
    apply HasPrefix_inv in Hp as [t Ht]. symmetry in Ht.
    apply str_app_eq_nil in Ht as [-> ->]. done.
  - destruct (HasPrefix (String c s) sep) eqn:Hp.
    + intros [= <-]. apply HasPrefix_inv in Hp as [t Ht]. rewrite Ht.
      split;
        [|apply (f_equal String.length) in Ht; rewrite str_length_app in Ht;
          simpl in Ht; lia].
      change (0 + String.length sep) with (String.length sep).
      rewrite slice_from_app. by destruct (sep +:+ t).
    + destruct (Index s sep) as [m'|] eqn:Hi; [|done]. intros [= <-].
      destruct (IH m' eq_refl) as [Heq Hlen]. simpl. split; [|lia].
      rewrite str_app_cons. by rewrite <- Heq.
Qed.

(** It gives the first one. *)
Lemma Index_first s sep m a b :
  Index s sep = Some m → s = a +:+ sep +:+ b → m ≤ String.length a.
Proof.
  revert m a. induction s as [|c s IH]; intros m a; simpl.
  - destruct (HasPrefix "" sep); [|done]. intros [= <-]. lia.
  - destruct (HasPrefix (String c s) sep) eqn:Hp; [intros [= <-]; lia|].
    destruct (Index s sep) as [m'|] eqn:Hi; [|done]. intros [= <-] Hs.
    destruct a as [|d a].
    + rewrite str_app_nil_l in Hs. rewrite Hs, HasPrefix_app in Hp. done.
    + rewrite str_app_cons in Hs. injection Hs as -> Hs.
      simpl. apply le_n_S. by apply IH.
Qed.

(** It finds none only when there is none. *)
Lemma Index_None s sep a b : Index s sep = None → s ≠ a +:+ sep +:+ b.
Proof.
  revert a. induction s as [|c s IH]; intros a; simpl.
  - destruct (HasPrefix "" sep) eqn:Hp; [done|]. intros _ Hs. symmetry in Hs.
    apply str_app_eq_nil in Hs as [-> [-> ->]%str_app_eq_nil]. done.
  - destruct (HasPrefix (String c s) sep) eqn:Hp; [done|].
    destruct (Index s sep) as [m'|] eqn:Hi; [done|]. intros _ Hs.
    destruct a as [|d a].
    + rewrite str_app_nil_l in Hs. rewrite Hs, HasPrefix_app in Hp. done.
    + rewrite str_app_cons in Hs. injection Hs as -> Hs. by eapply IH.
Qed.

Lemma Index_is_Some s sep a b : s = a +:+ sep +:+ b → is_Some (Index s sep).
Proof.
  intros Hs. destruct (Index s sep) eqn:Hi; [by eexists|].
  by apply (Index_None _ _ a b) in Hi.
Qed.

Lemma Contains_true s sep : Contains s sep = true ↔ ∃ a b, s = a +:+ sep +:+ b.
Proof.
  unfold Contains. split.
  - destruct (Index s sep) as [m|] eqn:Hi; [|done]. intros _.
    apply Index_Some in Hi as [Hs _]. eauto.
  - intros (a & b & Hs). by destruct (Index_is_Some _ _ _ _ Hs) as [m ->].
Qed.

Lemma Contains_false s sep : Contains s sep = false ↔ ∀ a b, s ≠ a +:+ sep +:+ b.
Proof.
  rewrite <- not_true_iff_false, Contains_true. split.
  - intros Hn a b Hs. apply Hn. eauto.
  - intros Hn (a & b & Hs). by apply (Hn a b).
Qed.

Lemma Contains_empty s : Contains s "" = true.
Proof. apply Contains_true. exists "", s. done. Qed.

End search_facts.

Section split_facts.
Implicit Types (s t u sep : string) (c : ascii).

Lemma only_at_end_nil sep : only_at_end sep "".
Proof.
  intros u v H. apply (f_equal String.length) in H.
  rewrite str_app_nil_l, !str_length_app in H. apply str_length_zero. lia.
Qed.

Lemma only_at_end_empty_sep pre : only_at_end "" pre → pre = "".
Proof. intros H. apply (H "" pre). by rewrite str_app_nil_r. Qed.

Lemma Index_only_at_end sep pre rest :
  only_at_end sep pre →
  Index (pre +:+ sep +:+ rest) sep = Some (String.length pre).
Proof.
  intros Hend.
  destruct (Index_is_Some (pre +:+ sep +:+ rest) sep pre rest eq_refl) as [m Hi].
  pose proof (Index_first _ _ _ _ _ Hi eq_refl) as Hle.
  destruct (Index_Some _ _ _ Hi) as [Hs Hlen].
  set (a := slice_to m (pre +:+ sep +:+ rest)) in *.
  assert (String.length a = m) as Ha.
  { apply length_slice_to. lia. }
  rewrite <- (str_app_assoc pre), <- (str_app_assoc a) in Hs.
  assert (String.length (a +:+ sep) ≤ String.length (pre +:+ sep)) as Hshort
    by (rewrite !str_length_app; lia).
  symmetry in Hs.
  destruct (str_app_eq_app _ _ _ _ Hs Hshort) as (w & Hw & _).
  pose proof Hw as Hw'. rewrite str_app_assoc in Hw'. apply Hend in Hw' as ->.
  rewrite str_app_nil_r in Hw. apply (f_equal String.length) in Hw.
  rewrite !str_length_app in Hw. rewrite Hi. f_equal. lia.
Qed.

(** The test that decides [only_at_end]. *)
Lemma only_at_end_Index sep pre :
  Index (pre +:+ sep) sep = Some (String.length pre) → only_at_end sep pre.
Proof.
  intros Hi u v Huv. pose proof (Index_first _ _ _ _ _ Hi Huv) as Hle.
  apply (f_equal String.length) in Huv. rewrite !str_length_app in Huv.
  apply str_length_zero. lia.
Qed.

Lemma SplitN_2_at sep pre rest :
  sep ≠ "" → only_at_end sep pre →
  SplitN_2 (pre +:+ sep +:+ rest) sep = [pre; rest].
Proof.
  intros Hsep Hend. unfold SplitN_2. destruct sep as [|c sep]; [done|].
  rewrite Index_only_at_end by done.
  rewrite slice_to_app, slice_from_add, slice_from_app, slice_from_app. done.
Qed.

Lemma SplitN_2_none s sep :
  sep ≠ "" → Contains s sep = false → SplitN_2 s sep = [s].
Proof.
  intros Hsep Hc. unfold SplitN_2, Contains in *.
  destruct sep; [done|]. by destruct (Index s _).
Qed.

(** The three shapes of the slice [SplitN] returns. *)
Lemma SplitN_2_cases s sep :
  (SplitN_2 s sep = [] ∧ s = "" ∧ sep = "") ∨
  (SplitN_2 s sep = [s] ∧ (sep ≠ "" → Contains s sep = false)) ∨
  (∃ a b, SplitN_2 s sep = [a; b] ∧ s = a +:+ sep +:+ b ∧ (sep = "" → a ≠ "")).
Proof.
  destruct sep as [|c sep].
  - destruct s as [|d [|e s]]; simpl.
    + by left.
    + right; left. done.
    + right; right. exists (String d ""), (String e s). done.
  - unfold SplitN_2, Contains.
    destruct (Index s (String c sep)) as [m|] eqn:Hi.
    + right; right. destruct (Index_Some _ _ _ Hi) as [Hs _]. eauto.
    + right; left. done.
Qed.

End split_facts.

(** ** [strings.Trim] with the cutset of one space *)
Section trim_facts.
Implicit Types (s t : string) (c : ascii).

Lemma spaces_snoc n : spaces n +:+ " " = spaces (S n).
Proof. induction n as [|n IH]; [done|]. simpl. by rewrite str_app_cons, IH. Qed.

Lemma in_cutset_space c : in_cutset c " " = bool_decide (c = " "%char).
Proof.
  simpl. destruct (decide (c = " "%char)).
  - by rewrite bool_decide_eq_true_2.
  - by rewrite bool_decide_eq_false_2.
Qed.

Lemma TrimRight_spaces_after s : ∃ j, s = TrimRight s " " +:+ spaces j.
Proof.
  induction s as [|c s [j IH]]; [by exists 0|]. cbn [TrimRight].
  destruct (TrimRight s " ") as [|d t] eqn:Ht.
  - rewrite str_app_nil_l in IH. rewrite in_cutset_space.
    destruct (decide (c = " "%char)) as [->|Hc].
    + rewrite bool_decide_eq_true_2 by done. exists (S j). by rewrite IH.
    + rewrite bool_decide_eq_false_2 by done. exists j. by rewrite IH at 1.
  - exists j. by rewrite IH at 1.
Qed.

Lemma TrimLeft_spaces_before s : ∃ i, s = spaces i +:+ TrimLeft s " ".
Proof.
  induction s as [|c s [i IH]]; [by exists 0|]. cbn [TrimLeft].
  rewrite in_cutset_space. destruct (decide (c = " "%char)) as [->|Hc].
  - rewrite bool_decide_eq_true_2 by done. exists (S i). simpl.
    by rewrite str_app_cons, <- IH.
  - rewrite bool_decide_eq_false_2 by done. by exists 0.
Qed.

Lemma TrimRight_no_space_last s t : TrimRight s " " ≠ t +:+ " ".
Proof.
  revert t. induction s as [|c s IH]; intros t; cbn [TrimRight].
  - intros [_ ?]%eq_sym%str_app_eq_nil. done.
  - destruct (TrimRight s " ") as [|d r] eqn:Hr.
    + rewrite in_cutset_space. destruct (decide (c = " "%char)) as [->|Hc].
      * rewrite bool_decide_eq_true_2 by done.
        intros [_ ?]%eq_sym%str_app_eq_nil. done.
      * rewrite bool_decide_eq_false_2 by done. destruct t as [|e t].
        -- rewrite str_app_nil_l. congruence.
        -- rewrite str_app_cons. intros [= _ [_ ?]%eq_sym%str_app_eq_nil]. done.
    + destruct t as [|e t].
      * rewrite str_app_nil_l. congruence.
      * rewrite str_app_cons. intros [= _ Heq]. by apply (IH t).
Qed.

Lemma TrimLeft_no_space_first s t : TrimLeft s " " ≠ " " +:+ t.
Proof.
  induction s as [|c s IH]; cbn [TrimLeft]; [done|].
  rewrite in_cutset_space. destruct (decide (c = " "%char)) as [->|Hc].
  - by rewrite bool_decide_eq_true_2.
  - rewrite bool_decide_eq_false_2 by done. rewrite str_app_cons. congruence.
Qed.

(** [Trim(s, " ")] is [s] without the spaces at its two ends, and has no
    space at either end. *)
Lemma Trim_spaces_around s :
  (∃ i j, s = spaces i +:+ Trim s " " +:+ spaces j) ∧
  (∀ t, Trim s " " ≠ " " +:+ t) ∧ (∀ t, Trim s " " ≠ t +:+ " ").
Proof.
  unfold Trim. split_and!.
  - destruct (TrimRight_spaces_after s) as [j Hj].
    destruct (TrimLeft_spaces_before (TrimRight s " ")) as [i Hi].
    exists i, j. by rewrite <- str_app_assoc, <- Hi.
  - apply TrimLeft_no_space_first.
  - intros t Heq.
    destruct (TrimLeft_spaces_before (TrimRight s " ")) as [i Hi].
    rewrite Heq, <- str_app_assoc in Hi. by apply TrimRight_no_space_last in Hi.
Qed.

End trim_facts.

(** ** The recursion of [parser.parse] *)
Section parse_facts.
Variable p : parser.

(** Every recursive call is on a strictly shorter string. *)
Lemma parse_step_shorter raw n rest :
  parse_step p raw = Recurse n rest → String.length rest < String.length raw.
Proof.
  unfold parse_step.
  destruct (SplitN_2_cases raw (startDelim p))
    as [(-> & _)|[(-> & _)|(a & b & -> & Hraw & Ha)]].
  - done.
  - by destruct (0 <? _).
  - destruct (0 <? String.length a) eqn:Hlen.
    + intros [= <- <-]. apply Nat.ltb_lt in Hlen.
      rewrite Hraw, !str_length_app. lia.
    + apply Nat.ltb_ge in Hlen. assert (a = "") as -> by (apply str_length_zero; lia).
      assert (startDelim p ≠ "") as Hstart by (intros ?; by apply Ha).
      destruct (SplitN_2_cases b (endDelim p))
        as [(-> & _)|[(-> & _)|(k & r & -> & Hb & _)]]; [done..|].
      intros [= <- <-]. rewrite Hraw, Hb, !str_length_app.
      destruct (startDelim p); [done|]. simpl. lia.
Qed.

(** More fuel than [raw] has characters is enough. *)
Lemma parse_fuel_is_Some fuel raw :
  String.length raw < fuel → is_Some (parse_fuel p fuel raw).
Proof.
  revert raw. induction fuel as [|fuel IH]; intros raw Hlen; [lia|].
  simpl. destruct (parse_step p raw) as [r|n rest] eqn:Hstep; [by eexists|].
  apply parse_step_shorter in Hstep.
  destruct (IH rest) as [r ->]; [lia|]. by eexists.
Qed.

(** More fuel does not change a result. *)
Lemma parse_fuel_mono fuel fuel' raw r :
  parse_fuel p fuel raw = Some r → fuel ≤ fuel' → parse_fuel p fuel' raw = Some r.
Proof.
  revert fuel' raw r. induction fuel as [|fuel IH]; intros fuel' raw r; [done|].
  intros H Hle. destruct fuel' as [|fuel']; [lia|]. simpl in *.
  destruct (parse_step p raw) as [r'|n rest]; [done|].
  destruct (parse_fuel p fuel rest) as [r'|] eqn:Hrec; [|done].
  by rewrite (IH fuel' rest r' Hrec) by lia.
Qed.

Lemma parse_fuel_enough fuel raw :
  String.length raw < fuel → parse_fuel p fuel raw = Some (parse p raw).
Proof.
  intros Hlen. unfold parse.
  destruct (parse_fuel_is_Some (S (String.length raw)) raw) as [r Hr]; [lia|].
  rewrite Hr. eapply parse_fuel_mono; [done|lia].
Qed.

(** The equation of the recursive helper, as the source has it. *)
Lemma parse_unfold raw :
  parse p raw =
  match parse_step p raw with
  | Return r => r
  | Recurse n rest => let* tail := parse p rest in OK (n :: tail)
  end.
Proof.
  pose proof (parse_fuel_enough (S (String.length raw)) raw (Nat.lt_succ_diag_r _)) as H.
  simpl in H. destruct (parse_step p raw) as [r|n rest] eqn:Hstep.
  - by injection H.
  - apply parse_step_shorter in Hstep.
    rewrite (parse_fuel_enough (String.length raw) rest Hstep) in H.
    by injection H.
Qed.

(** The cases of one activation, read off the text of [raw]. *)
Lemma parse_cases raw :
  (raw = "" ∧ startDelim p = "" ∧ parse p raw = Panic) ∨
  ((startDelim p ≠ "" → Contains raw (startDelim p) = false) ∧
   parse p raw = OK (lit_nodes raw)) ∨
  (∃ a b, raw = a +:+ startDelim p +:+ b ∧ a ≠ "" ∧
     parse p raw = let* tail := parse p (startDelim p +:+ b) in OK (val a :: tail)) ∨
  (∃ b, raw = startDelim p +:+ b ∧ startDelim p ≠ "" ∧
     ((b = "" ∧ endDelim p = "" ∧ parse p raw = Panic) ∨
      ((endDelim p ≠ "" → Contains b (endDelim p) = false) ∧
       parse p raw = Err (ErrTagNotClosed (endDelim p))) ∨
      (∃ k r, b = k +:+ endDelim p +:+ r ∧
         parse p raw = let* tail := parse p r in OK (key (Trim k " ") :: tail)))).
Proof.
  rewrite (parse_unfold raw). unfold parse_step.
  destruct (SplitN_2_cases raw (startDelim p))
    as [(-> & ? & ?)|[(-> & ?)|(a & b & -> & Hraw & Ha)]].
  - by left.
  - right; left. split; [done|]. by destruct raw.
  - destruct (0 <? String.length a) eqn:Hnz.
    + right; right; left. exists a, b. split_and!; [done| |done].
      intros ->. done.
    + apply Nat.ltb_ge in Hnz. assert (a = "") as -> by (apply str_length_zero; lia).
      right; right; right. exists b. split_and!; [done|naive_solver|].
      destruct (SplitN_2_cases b (endDelim p))
        as [(-> & ? & ?)|[(-> & ?)|(k & r & -> & Hb & _)]].
      * by left.
      * right; left. done.
      * right; right. by exists k, r.
Qed.

End parse_facts.

(** ** [Template.Inject] *)
Section inject_facts.
Variable replacements : gmap string string.

Lemma all_bound_nil : all_bound replacements [].
Proof. intros s Hs. by apply elem_of_nil in Hs. Qed.

Lemma all_bound_cons n ns :
  all_bound replacements (n :: ns) ↔
  all_bound replacements [n] ∧ all_bound replacements ns.
Proof.
  unfold all_bound. split.
  - intros H. split; intros s Hs; apply H.
    + apply list_elem_of_singleton in Hs as <-. apply elem_of_cons. by left.
    + apply elem_of_cons. by right.
  - intros [H1 H2] s [Heq|Hs]%elem_of_cons; [|by apply H2].
    apply H1. rewrite Heq. by apply list_elem_of_singleton.
Qed.

(** With every key bound, the loop appends the emissions to [res]. *)
Lemma Inject_loop_bound ns res :
  all_bound replacements ns →
  Inject_loop ns replacements res =
  OK (res +:+ concat_strings (emission replacements <$> ns)).
Proof.
  revert res. induction ns as [|n ns IH]; intros res Hb; simpl.
  - by rewrite str_app_nil_r.
  - apply all_bound_cons in Hb as [Hn Hb]. destruct n as [v|s]; simpl.
    + by rewrite IH, str_app_assoc.
    + destruct (Hn s) as [d Hd]; [set_solver|]. rewrite Hd. simpl.
      by rewrite IH, str_app_assoc.
Qed.

(** The loop stops at the first key that is not bound. *)
Lemma Inject_loop_unbound pre s post res :
  all_bound replacements pre → replacements !! s = None →
  Inject_loop (pre ++ key s :: post) replacements res = Err (ErrKeyNotFound s).
Proof.
  revert res. induction pre as [|n pre IH]; intros res Hb Hs; simpl.
  - by rewrite Hs.
  - apply all_bound_cons in Hb as [Hn Hb]. destruct n as [v|s']; simpl.
    + by apply IH.
    + destruct (Hn s') as [d Hd]; [set_solver|]. rewrite Hd. by apply IH.
Qed.

(** Among the nodes with an unbound key there is a first one. *)
Lemma first_unbound ns :
  (∃ s, key s ∈ ns ∧ replacements !! s = None) →
  ∃ pre s post, ns = pre ++ key s :: post ∧
    all_bound replacements pre ∧ replacements !! s = None.
Proof.
  induction ns as [|n ns IH]; intros (s & Hin & Hs).
  - by apply elem_of_nil in Hin.
  - destruct n as [v|s'].
    + destruct IH as (pre & s1 & post & -> & Hb & Hs1).
      { exists s. split; [|done]. by apply elem_of_cons in Hin as [?|?]. }
      exists (val v :: pre), s1, post. split_and!; [done| |done].
      apply all_bound_cons. split; [|done]. intros ? ?. set_solver.
    + destruct (replacements !! s') as [d|] eqn:Hs'.
      * destruct IH as (pre & s1 & post & -> & Hb & Hs1).
        { exists s. split; [|done].
          apply elem_of_cons in Hin as [[= ->]|?]; [congruence|done]. }
        exists (key s' :: pre), s1, post. split_and!; [done| |done].
        apply all_bound_cons. split; [|done].
        intros ? [[= ->]|[]%elem_of_nil]%elem_of_cons. by eexists.
      * exists [], s', ns. split_and!; [done|apply all_bound_nil|done].
Qed.

End inject_facts.

(** C1. [Inject] fails with the key-not-found error of the first node, in
    node order, whose key has no replacement, when there is such a node;
    when every key has a replacement, it returns the emissions of the
    nodes one after the other: the text of a literal, the replacement of a
    key. *)
Theorem Inject_first_missing_or_concat (t : template) (m : gmap string string) :
  ((∃ s, key s ∈ nodes t ∧ m !! s = None) →
   ∃ pre s post, nodes t = pre ++ key s :: post ∧ all_bound m pre ∧
     m !! s = None ∧ Inject t m = Err (ErrKeyNotFound s)) ∧
  (all_bound m (nodes t) →
   Inject t m = OK (concat_strings (emission m <$> nodes t))).
Proof.
  split.
  - intros Hex. destruct (first_unbound m _ Hex) as (pre & s & post & Hns & Hb & Hs).
    exists pre, s, post. split_and!; [done..|].
    unfold Inject. rewrite Hns. by apply Inject_loop_unbound.
  - intros Hb. unfold Inject. by rewrite Inject_loop_bound.
Qed.

Lemma Inject_first_missing_or_concat_witness :
  (∃ pre s post,
     [val "x="; key "a"; key "b"; val ";"; key "c"] = pre ++ key s :: post ∧
     all_bound {[ "a" := "1" ]} pre ∧
     ({[ "a" := "1" ]} : gmap string string) !! s = None ∧
     Inject (Template [val "x="; key "a"; key "b"; val ";"; key "c"])
            {[ "a" := "1" ]} = Err (ErrKeyNotFound s)) ∧
  Inject (Template [val "x="; key "a"]) {[ "a" := "1" ]} = OK "x=1".
Proof.
  split.
  - apply (Inject_first_missing_or_concat
             (Template [val "x="; key "a"; key "b"; val ";"; key "c"])
             {[ "a" := "1" ]}).
    exists "b". split; [|reflexivity].
    apply elem_of_cons; right. apply elem_of_cons; right.
    apply elem_of_cons; by left.
  - refine (proj2 (Inject_first_missing_or_concat
                     (Template [val "x="; key "a"]) {[ "a" := "1" ]}) _).
    intros s Hs. simpl in Hs. exists "1".
    apply elem_of_cons in Hs as [[=]|Hs].
    apply list_elem_of_singleton in Hs as [= ->]. reflexivity.
Defined.

(** ** [Template.Keys] *)

Lemma elem_of_Keys_set ns set s :
  s ∈ Keys_set ns set ↔ s ∈ set ∨ key s ∈ ns.
Proof.
  revert set. induction ns as [|[v|s'] ns IH]; intros set; simpl.
  - set_solver.
  - rewrite IH. set_solver.
  - rewrite IH. set_solver.
Qed.

(** C3. [Keys] returns the keys of the key nodes of the template, each
    exactly once and nothing else, in whatever order [range] visits the
    set. *)
Theorem Keys_exactly_the_distinct_keys
    (range_keys : gset string → list string) (t : template) :
  (∀ X, range_keys X ≡ₚ elements X) →
  NoDup (Keys range_keys t) ∧
  (∀ s, s ∈ Keys range_keys t ↔ key s ∈ nodes t).
Proof.
  intros Hrange. unfold Keys. split.
  - rewrite Hrange. apply NoDup_elements.
  - intros s. rewrite Hrange, elem_of_elements, elem_of_Keys_set. set_solver.
Qed.

Lemma Keys_exactly_the_distinct_keys_witness :
  NoDup (Keys elements (Template [key "a"; val "-"; key "b"; key "a"])) ∧
  (∀ s, s ∈ Keys elements (Template [key "a"; val "-"; key "b"; key "a"]) ↔
        key s ∈ [key "a"; val "-"; key "b"; key "a"]).
Proof.
  apply (Keys_exactly_the_distinct_keys elements
           (Template [key "a"; val "-"; key "b"; key "a"])).
  intros X. reflexivity.
Defined.

(** ** Parsing a text read from left to right *)
Section parse_text.
Variable p : parser.
Hypothesis start_nonempty : startDelim p ≠ "".

(** A text without start delimiter is one literal, or nothing. *)
Lemma parse_no_start raw :
  Contains raw (startDelim p) = false → parse p raw = OK (lit_nodes raw).
Proof.
  intros Hc. rewrite parse_unfold. unfold parse_step.
  rewrite SplitN_2_none by done. by destruct raw.
Qed.

(** Literal text before a start delimiter. *)
Lemma parse_lit lit b :
  only_at_end (startDelim p) lit →
  parse p (lit +:+ startDelim p +:+ b) =
  let* tail := parse p (startDelim p +:+ b) in OK (lit_nodes lit ++ tail).
Proof.
  intros Hlit. destruct lit as [|c lit].
  - rewrite str_app_nil_l. symmetry. apply bind_OK_id.
  - rewrite parse_unfold. unfold parse_step. by rewrite SplitN_2_at.
Qed.

(** A start delimiter whose end delimiter follows. *)
Lemma parse_open k r :
  endDelim p ≠ "" → only_at_end (endDelim p) k →
  parse p (startDelim p +:+ k +:+ endDelim p +:+ r) =
  let* tail := parse p r in OK (key (Trim k " ") :: tail).
Proof.
  intros Hend Hk. rewrite parse_unfold. unfold parse_step.
  rewrite <- (str_app_nil_l (startDelim p +:+ _)).
  rewrite SplitN_2_at by (done || apply only_at_end_nil). simpl.
  by rewrite SplitN_2_at.
Qed.

(** A start delimiter that no end delimiter follows. *)
Lemma parse_unclosed b :
  Contains b (endDelim p) = false →
  parse p (startDelim p +:+ b) = Err (ErrTagNotClosed (endDelim p)).
Proof.
  intros Hc. assert (endDelim p ≠ "") as Hend.
  { intros Heq. rewrite Heq, Contains_empty in Hc. done. }
  rewrite parse_unfold. unfold parse_step.
  rewrite <- (str_app_nil_l (startDelim p +:+ _)).
  rewrite SplitN_2_at by (done || apply only_at_end_nil). simpl.
  by rewrite SplitN_2_none.
Qed.

(** Closed placeholders in front of a text give their nodes in front of
    the nodes of the text. *)
Lemma parse_closed pre ns s :
  endDelim p ≠ "" → closed p pre ns →
  parse p (pre +:+ s) = let* tail := parse p s in OK (ns ++ tail).
Proof.
  intros Hend Hcl. induction Hcl as [|lit k rest ns Hlit Hk Hcl IH].
  - rewrite str_app_nil_l. symmetry. apply bind_OK_id.
  - rewrite !str_app_assoc, parse_lit, parse_open by done.
    rewrite IH. destruct (parse p s) as [tail| |]; simpl; [|done..].
    by rewrite <- app_assoc.
Qed.

End parse_text.

Lemma lit_nodes_key_free lit s : key s ∉ lit_nodes lit.
Proof.
  destruct lit; simpl; [apply not_elem_of_nil|].
  intros Hin. apply list_elem_of_singleton in Hin. discriminate.
Qed.

(** ** Templates without placeholders *)

Lemma concat_lit_nodes m a tail :
  concat_strings (emission m <$> (lit_nodes a ++ tail)) =
  a +:+ concat_strings (emission m <$> tail).
Proof. by destruct a. Qed.

Lemma parse_key_free (p : parser) (m : gmap string string) n raw ns :
  String.length raw < n → parse p raw = OK ns → (∀ s, key s ∉ ns) →
  concat_strings (emission m <$> ns) = raw.
Proof.
  revert raw ns. induction n as [|n IH]; intros raw ns Hlen Hparse Hfree; [lia|].
  destruct (parse_cases p raw)
    as [(_ & _ & Hp)|[(_ & Hp)|[(a & b & Hraw & Ha & Hp)|(b & Hraw & _ & Hb)]]].
  - congruence.
  - rewrite Hp in Hparse. injection Hparse as <-.
    rewrite <- (List.app_nil_r (lit_nodes raw)), concat_lit_nodes.
    apply str_app_nil_r.
  - rewrite Hp in Hparse.
    destruct (parse p (startDelim p +:+ b)) as [tail| |] eqn:Htail; [|done..].
    injection Hparse as <-. rewrite Hraw at 1. simpl. f_equal.
    apply (IH _ tail); [|done|].
    + rewrite Hraw, !str_length_app in Hlen. rewrite str_length_app.
      destruct a; [done|]. simpl in Hlen. lia.
    + intros s Hs. apply (Hfree s). apply elem_of_cons. by right.
  - destruct Hb as [(_ & _ & Hp)|[(_ & Hp)|(k & r & _ & Hp)]]; [congruence..|].
    rewrite Hp in Hparse. destruct (parse p r) as [tail| |]; [|done..].
    injection Hparse as <-. exfalso. apply (Hfree (Trim k " ")).
    apply elem_of_cons. by left.
Qed.

(** C4. When parsing [raw] gives a template without key nodes, injecting
    any replacements at all gives [raw] back; in particular a [raw] that
    does not contain the start delimiter parses into such a template. *)
Theorem Inject_key_free_is_raw (p : parser) (raw : string)
    (m : gmap string string) :
  (∀ t, Parse p raw = OK t → (∀ s, key s ∉ nodes t) → Inject t m = OK raw) ∧
  (Contains raw (startDelim p) = false →
   ∃ t, Parse p raw = OK t ∧ (∀ s, key s ∉ nodes t) ∧ Inject t m = OK raw).
Proof.
  assert (∀ t, Parse p raw = OK t → (∀ s, key s ∉ nodes t) →
               Inject t m = OK raw) as Hfree.
  { unfold Parse. destruct (parse p raw) as [ns| |] eqn:Hparse; [|done..].
    intros t [= <-] Hfree. simpl in Hfree. unfold Inject. simpl.
    rewrite Inject_loop_bound.
    - rewrite str_app_nil_l. f_equal.
      apply (parse_key_free p m (S (String.length raw))); [lia|done..].
    - intros s Hs. by apply Hfree in Hs. }
  split; [done|]. intros Hc.
  assert (startDelim p ≠ "") as Hstart.
  { intros Heq. rewrite Heq, Contains_empty in Hc. done. }
  assert (Parse p raw = OK (Template (lit_nodes raw))) as Hparse.
  { unfold Parse. by rewrite parse_no_start. }
  exists (Template (lit_nodes raw)). split_and!; [done|apply lit_nodes_key_free|].
  apply Hfree; [done|]. apply lit_nodes_key_free.
Qed.

Lemma Inject_key_free_is_raw_witness :
  Inject (Template [val "DB_USER = user"]) {[ "path/to/secret" := "val" ]}
  = OK "DB_USER = user" ∧
  ∃ t, Parse (NewParser "{{" "}}") "DB_USER = user" = OK t ∧
       (∀ s, key s ∉ nodes t) ∧
       Inject t {[ "path/to/secret" := "val" ]} = OK "DB_USER = user".
Proof.
  split.
  - apply (proj1 (Inject_key_free_is_raw (NewParser "{{" "}}") "DB_USER = user"
                    {[ "path/to/secret" := "val" ]})).
    + reflexivity.
    + intros s Hs. simpl in Hs. apply list_elem_of_singleton in Hs. discriminate.
  - apply (proj2 (Inject_key_free_is_raw (NewParser "{{" "}}") "DB_USER = user"
                    {[ "path/to/secret" := "val" ]})).
    reflexivity.
Defined.

(** With non-empty delimiters no slice is indexed out of its range: the
    helper returns nodes or an error. *)
Lemma parse_no_panic (p : parser) n raw :
  startDelim p ≠ "" → endDelim p ≠ "" → String.length raw < n →
  parse p raw ≠ Panic.
Proof.
  intros Hstart Hend. revert raw. induction n as [|n IH]; intros raw Hlen; [lia|].
  destruct (parse_cases p raw)
    as [(_ & ? & _)|[(_ & Hp)|[(a & b & Hraw & Ha & Hp)|(b & Hraw & _ & Hb)]]].
  - done.
  - by rewrite Hp.
  - rewrite Hp. specialize (IH (startDelim p +:+ b)).
    destruct (parse p (startDelim p +:+ b)); [done..|]. apply IH.
    rewrite Hraw, !str_length_app in Hlen. rewrite str_length_app.
    destruct a; [done|]. simpl in Hlen. lia.
  - destruct Hb as [(_ & ? & _)|[(_ & Hp)|(k & r & Hk & Hp)]]; [done|by rewrite Hp|].
    rewrite Hp. specialize (IH r). destruct (parse p r); [done..|]. apply IH.
    rewrite Hraw, Hk, !str_length_app in Hlen.
    destruct (startDelim p); [done|]. simpl in Hlen. lia.
Qed.

(** C9. With both delimiters non-empty, every recursive call of the helper
    is on a strictly shorter string, and the helper returns on every
    input: bounded by any depth above the length of its input it gives
    the result of [parse], which is a list of nodes or an error, never a
    panic. *)
Theorem parse_terminates (p : parser) :
  startDelim p ≠ "" → endDelim p ≠ "" →
  (∀ raw n rest,
     parse_step p raw = Recurse n rest → String.length rest < String.length raw) ∧
  (∀ raw fuel,
     String.length raw < fuel → parse_fuel p fuel raw = Some (parse p raw)) ∧
  (∀ raw, parse p raw ≠ Panic).
Proof.
  intros Hstart Hend. split_and!.
  - apply parse_step_shorter.
  - intros raw fuel. apply parse_fuel_enough.
  - intros raw. by apply (parse_no_panic p (S (String.length raw))); [..|lia].
Qed.

Lemma parse_terminates_witness :
  (∀ raw n rest,
     parse_step (NewParser "{{" "}}") raw = Recurse n rest →
     String.length rest < String.length raw) ∧
  (∀ raw fuel,
     String.length raw < fuel →
     parse_fuel (NewParser "{{" "}}") fuel raw =
     Some (parse (NewParser "{{" "}}") raw)) ∧
  (∀ raw, parse (NewParser "{{" "}}") raw ≠ Panic).
Proof.
  apply (parse_terminates (NewParser "{{" "}}")); simpl; discriminate.
Defined.

(** C2, as stated: for every delimiter pair, a start delimiter outside the
    closed placeholders that no end delimiter follows makes [Parse] fail.
    It does not hold for the empty start delimiter, which [Parse] never
    takes for the opening of a placeholder: with the delimiters [""] and
    ["}}"], the text ["a"] has the start delimiter at its beginning and no
    end delimiter, and parses into the literal ["a"]
    ([Parse_empty_start_delimiter]). *)
Lemma unterminated_fails_not_for_every_pair :
  ¬ (∀ (p : parser) (pre : string) (ns : list node) (lit rest : string),
       closed p pre ns →
       only_at_end (startDelim p) lit →
       Contains rest (endDelim p) = false →
       Parse p (pre +:+ lit +:+ startDelim p +:+ rest) =
       Err (ErrTagNotClosed (endDelim p))).
Proof.
  intros H.
  specialize (H (NewParser "" "}}") "" [] "" "a"
                (closed_nil _) (only_at_end_nil _) eq_refl).
  discriminate H.
Qed.

(** C2, amended: for every non-empty start delimiter and every end
    delimiter, when the text is a sequence of closed placeholders, then
    literal text, then a start delimiter that no end delimiter follows,
    [Parse] fails with the tag-not-closed error that carries the end
    delimiter. *)
Theorem unterminated_fails (p : parser) (pre : string) (ns : list node)
    (lit rest : string) :
  startDelim p ≠ "" →
  closed p pre ns →
  only_at_end (startDelim p) lit →
  Contains rest (endDelim p) = false →
  Parse p (pre +:+ lit +:+ startDelim p +:+ rest) =
  Err (ErrTagNotClosed (endDelim p)).
Proof.
  intros Hstart Hcl Hlit Hrest.
  assert (endDelim p ≠ "") as Hend.
  { intros Heq. rewrite Heq, Contains_empty in Hrest. done. }
  unfold Parse.
  rewrite (parse_closed p Hstart pre ns _ Hend Hcl).
  rewrite parse_lit, parse_unclosed by done. done.
Qed.

Lemma unterminated_fails_witness :
  Parse (NewParser "{{" "}}") "a={{x}};b={{path/to/secret" =
  Err (ErrTagNotClosed "}}").
Proof.
  apply (unterminated_fails (NewParser "{{" "}}") "a={{x}}"
           [val "a="; key "x"] ";b=" "path/to/secret").
  - discriminate.
  - apply (closed_group (NewParser "{{" "}}") "a=" "x" "" []).
    + apply only_at_end_Index. reflexivity.
    + apply only_at_end_Index. reflexivity.
    + apply closed_nil.
  - apply only_at_end_Index. reflexivity.
  - reflexivity.
Defined.

(** An empty start delimiter opens nothing: the templates [parse] makes
    with it have no key node.  The start delimiters that open a
    placeholder are the non-empty ones. *)
Lemma empty_start_opens_nothing (p : parser) n raw ns :
  startDelim p = "" → String.length raw < n → parse p raw = OK ns →
  ∀ s, key s ∉ ns.
Proof.
  intros Hstart. revert raw ns.
  induction n as [|n IH]; intros raw ns Hlen Hparse; [lia|].
  destruct (parse_cases p raw)
    as [(_ & _ & Hp)|[(_ & Hp)|[(a & b & Hraw & Ha & Hp)|(b & _ & Hne & _)]]].
  - congruence.
  - rewrite Hp in Hparse. injection Hparse as <-. apply lit_nodes_key_free.
  - rewrite Hp in Hparse.
    destruct (parse p (startDelim p +:+ b)) as [tail| |] eqn:Htail; [|done..].
    injection Hparse as <-. intros s [[=]|Hin]%elem_of_cons.
    apply (IH (startDelim p +:+ b) tail) in Hin; [done| |done].
    rewrite Hraw, !str_length_app in Hlen. rewrite str_length_app.
    destruct a; [done|]. simpl in Hlen. lia.
  - done.
Qed.

(** C5. After an opening start delimiter (a non-empty one: see
    [empty_start_opens_nothing]), a second start delimiter that comes
    before the next end delimiter opens nothing: the whole span between
    the opening and that end delimiter, second start delimiter included,
    is one key, with the spaces at its two ends trimmed
    ([Trim_spaces_around]). *)
Theorem second_start_delimiter_is_key_text (p : parser) (pre : string)
    (ns : list node) (lit a b rest : string) :
  startDelim p ≠ "" →
  closed p pre ns →
  only_at_end (startDelim p) lit →
  only_at_end (endDelim p) (a +:+ startDelim p +:+ b) →
  Parse p (pre +:+ lit +:+ startDelim p +:+
           (a +:+ startDelim p +:+ b) +:+ endDelim p +:+ rest) =
  let* t := Parse p rest in
  OK (Template (ns ++ lit_nodes lit ++
                key (Trim (a +:+ startDelim p +:+ b) " ") :: nodes t)).
Proof.
  intros Hstart Hcl Hlit Hspan.
  assert (endDelim p ≠ "") as Hend.
  { intros Heq. rewrite Heq in Hspan. apply only_at_end_empty_sep in Hspan.
    apply str_app_eq_nil in Hspan as [_ [? _]%str_app_eq_nil]. done. }
  unfold Parse.
  rewrite (parse_closed p Hstart pre ns _ Hend Hcl).
  rewrite parse_lit, parse_open by done.
  by destruct (parse p rest).
Qed.

Lemma second_start_delimiter_is_key_text_witness :
  Parse (NewParser "{{" "}}") "x={{ a {{ b }}!" =
  OK (Template [val "x="; key "a {{ b"; val "!"]).
Proof.
  apply (second_start_delimiter_is_key_text (NewParser "{{" "}}")
           "" [] "x=" " a " " b " "!").
  - discriminate.
  - apply closed_nil.
  - apply only_at_end_Index. reflexivity.
  - apply only_at_end_Index. reflexivity.
Defined.

(** ** Delimiters and spaces *)
Section spaces_facts.
Implicit Types (s t e w : string).

Lemma length_spaces n : String.length (spaces n) = n.
Proof. induction n as [|n IH]; simpl; [done|]. by rewrite IH. Qed.

Lemma all_spaces_spaces n : all_spaces (spaces n) = true.
Proof. induction n as [|n IH]; [done|]. by simpl. Qed.

Lemma all_spaces_app s t : all_spaces (s +:+ t) = all_spaces s && all_spaces t.
Proof.
  induction s as [|c s IH]; [done|]. rewrite str_app_cons. simpl.
  by rewrite IH, andb_assoc.
Qed.

Lemma all_spaces_eq s : all_spaces s = true → s = spaces (String.length s).
Proof.
  induction s as [|c s IH]; [done|]. simpl.
  intros [Hc Hs]%andb_prop. apply bool_decide_eq_true_1 in Hc as ->.
  by rewrite <- IH.
Qed.

Lemma spaces_add a b : spaces a +:+ spaces b = spaces (a + b).
Proof. induction a as [|a IH]; [done|]. simpl. by rewrite str_app_cons, IH. Qed.

Lemma TrimRight_spaces n : TrimRight (spaces n) " " = "".
Proof. induction n as [|n IH]; [done|]. simpl. by rewrite IH. Qed.

Lemma Trim_spaces n : Trim (spaces n) " " = "".
Proof. unfold Trim. by rewrite TrimRight_spaces. Qed.

(** A string that comes back when spaces are put in front of it is made
    of spaces. *)
Lemma shifted_by_spaces e w v :
  w ≠ "" → all_spaces w = true → e +:+ v = w +:+ e → all_spaces e = true.
Proof.
  revert w v. induction e as [|c e IH]; intros w v Hw Hsp Heq; [done|].
  destruct w as [|d w]; [done|]. simpl in Hsp.
  apply andb_prop in Hsp as [Hd Hsp]. apply bool_decide_eq_true_1 in Hd as ->.
  rewrite !str_app_cons in Heq. injection Heq as -> Heq. simpl.
  apply (IH (w +:+ String " " "") v).
  - intros [_ ?]%str_app_eq_nil. done.
  - rewrite all_spaces_app, Hsp. done.
  - by rewrite str_app_assoc.
Qed.

(** After spaces, a delimiter that is not made of spaces is found where
    the spaces end. *)
Lemma only_at_end_spaces e n : all_spaces e = false → only_at_end e (spaces n).
Proof.
  intros He u v Heq.
  destruct (decide (String.length u < n)) as [Hlt|Hge].
  - destruct (str_app_eq_app u (e +:+ v) (spaces n) e) as (w & Hw & Hev);
      [done|rewrite length_spaces; lia|].
    exfalso. assert (all_spaces e = true) as Hsp; [|congruence].
    apply (shifted_by_spaces e w v); [| |done].
    + intros ->. rewrite str_app_nil_r in Hw.
      apply (f_equal String.length) in Hw. rewrite length_spaces in Hw. lia.
    + pose proof (all_spaces_spaces n) as Hn.
      rewrite Hw, all_spaces_app in Hn. by apply andb_prop in Hn as [_ ?].
  - apply (f_equal String.length) in Heq.
    rewrite !str_length_app, length_spaces in Heq. apply str_length_zero. lia.
Qed.

(** Spaces hold no delimiter that is not made of spaces. *)
Lemma Contains_spaces e n : all_spaces e = false → Contains (spaces n) e = false.
Proof.
  intros He. apply Contains_false. intros a b Heq.
  pose proof (all_spaces_spaces n) as Hn.
  rewrite Heq, !all_spaces_app, He in Hn. by destruct (all_spaces a).
Qed.

End spaces_facts.

(** The template of a start delimiter, spaces and an end delimiter. *)
Lemma parse_empty_key (p : parser) (n : nat) :
  startDelim p ≠ "" → endDelim p ≠ "" →
  all_spaces (startDelim p) && all_spaces (endDelim p) = false →
  ∃ lit, parse p (startDelim p +:+ spaces n +:+ endDelim p) =
         OK (key "" :: lit_nodes lit).
Proof.
  intros Hstart Hend Hsp.
  destruct (all_spaces (endDelim p)) eqn:He.
  - rewrite andb_true_r in Hsp. exists (spaces n).
    rewrite (all_spaces_eq _ He), spaces_add, Nat.add_comm, <- spaces_add.
    rewrite <- (all_spaces_eq _ He).
    rewrite <- (str_app_nil_l (endDelim p +:+ _)).
    rewrite parse_open by (done || apply only_at_end_nil).
    rewrite parse_no_start by (done || by apply Contains_spaces). done.
  - exists "". rewrite <- (str_app_nil_r (endDelim p)) at 1.
    rewrite parse_open by (done || by apply only_at_end_spaces).
    rewrite Trim_spaces, parse_no_start; [done..|].
    apply Contains_false. intros a b [_ [? _]%str_app_eq_nil]%eq_sym%str_app_eq_nil.
    done.
Qed.

(** C10, as stated: for every pair of non-empty delimiters, a start
    delimiter, spaces and an end delimiter parse into a template with the
    empty key.  It does not hold when both delimiters are made of spaces:
    the end delimiter is then found inside the spaces, and what is left
    opens a placeholder that nothing closes.  With both delimiters one
    space, the text of a start delimiter, one space and an end delimiter
    does not parse ([Parse_delimiters_of_spaces]). *)
Lemma empty_key_not_for_every_pair :
  ¬ (∀ (p : parser) (n : nat),
       startDelim p ≠ "" → endDelim p ≠ "" →
       ∃ t, Parse p (startDelim p +:+ spaces n +:+ endDelim p) = OK t ∧
            key "" ∈ nodes t ∧
            (∀ m : gmap string string,
               m !! "" = None → Inject t m = Err (ErrKeyNotFound ""))).
Proof.
  intros H.
  destruct (H (NewParser " " " ") 1) as (t & Ht & _); [discriminate..|].
  discriminate Ht.
Qed.

(** C10, amended: for every pair of non-empty delimiters of which at least
    one has a character that is not a space, a start delimiter, any number
    of spaces and an end delimiter parse into a template with a key node
    whose key is the empty string; [Inject] on it fails with the
    key-not-found error of the empty key when the empty key has no
    replacement, and succeeds when it has one. *)
Theorem empty_key (p : parser) (n : nat) :
  startDelim p ≠ "" → endDelim p ≠ "" →
  all_spaces (startDelim p) && all_spaces (endDelim p) = false →
  ∃ t, Parse p (startDelim p +:+ spaces n +:+ endDelim p) = OK t ∧
       key "" ∈ nodes t ∧
       (∀ m : gmap string string,
          m !! "" = None → Inject t m = Err (ErrKeyNotFound "")) ∧
       (∀ m : gmap string string,
          is_Some (m !! "") → ∃ out, Inject t m = OK out).
Proof.
  intros Hstart Hend Hsp.
  destruct (parse_empty_key p n Hstart Hend Hsp) as [lit Hparse].
  exists (Template (key "" :: lit_nodes lit)). unfold Parse. rewrite Hparse.
  split_and!.
  - done.
  - apply elem_of_cons. by left.
  - intros m Hm. unfold Inject. simpl. by rewrite Hm.
  - intros m [v Hv]. unfold Inject. simpl. rewrite Hv.
    rewrite Inject_loop_bound; [by eexists|].
    intros s Hs. by apply lit_nodes_key_free in Hs.
Qed.

Lemma empty_key_witness :
  ∃ t, Parse (NewParser "{{" "}}") "{{   }}" = OK t ∧
       key "" ∈ nodes t ∧
       (∀ m : gmap string string,
          m !! "" = None → Inject t m = Err (ErrKeyNotFound "")) ∧
       (∀ m : gmap string string,
          is_Some (m !! "") → ∃ out, Inject t m = OK out).
Proof.
  apply (empty_key (NewParser "{{" "}}") 3); [discriminate..|reflexivity].
Defined.

(** ** The value normalizer *)
Section trimQuotes_facts.
Import secrethub.

(** [s] starts and ends with the character [q]. *)
Lemma quoted_intro q inner :
  HasPrefix (String q (inner +:+ String q "")) (String q "") = true ∧
  HasSuffix (String q (inner +:+ String q "")) (String q "") = true.
Proof.
  split.
  - simpl. by case_decide.
  - unfold HasSuffix. apply andb_true_intro. split.
    + apply Nat.leb_le. simpl. lia.
    + apply bool_decide_eq_true_2. simpl String.length.
      rewrite str_length_app. simpl String.length.
      replace (S (String.length inner + 1) - 1) with (S (String.length inner)) by lia.
      simpl. apply slice_from_app.
Qed.

Lemma quoted_inv q s :
  2 ≤ String.length s →
  HasPrefix s (String q "") = true → HasSuffix s (String q "") = true →
  ∃ inner, s = String q (inner +:+ String q "").
Proof.
  intros Hlen [t Ht]%HasPrefix_inv Hsuf. unfold HasSuffix in Hsuf.
  apply andb_prop in Hsuf as [_ Hsuf]. apply bool_decide_eq_true_1 in Hsuf.
  simpl String.length in Hsuf.
  pose proof (slice_to_from (String.length s - 1) s) as Hs. rewrite Hsuf in Hs.
  pose proof (length_slice_to (String.length s - 1) s ltac:(lia)) as Hu.
  destruct (slice_to (String.length s - 1) s) as [|c inner]; [simpl in Hu; lia|].
  rewrite <- Hs in Ht. rewrite !str_app_cons in Ht. injection Ht as -> _.
  exists inner. by rewrite <- Hs.
Qed.

Lemma trimQuotes_quoted q inner :
  q = squote ∨ q = dquote →
  trimQuotes (String q (inner +:+ String q "")) = inner.
Proof.
  intros Hq. unfold trimQuotes.
  destruct (quoted_intro q inner) as [Hpre Hsuf].
  assert ((2 <=? String.length (String q (inner +:+ String q ""))) = true) as ->.
  { apply Nat.leb_le. simpl. rewrite str_length_app. simpl. lia. }
  destruct Hq as [-> | ->]; rewrite Hpre, Hsuf; simpl;
    rewrite ?orb_true_r, str_length_app; simpl String.length;
    replace (String.length inner + 1 - 1) with (String.length inner) by lia;
    apply slice_to_app.
Qed.

Lemma trimQuotes_unquoted s :
  (∀ q inner, q = squote ∨ q = dquote → s ≠ String q (inner +:+ String q "")) →
  trimQuotes s = s.
Proof.
  intros Hs. unfold trimQuotes.
  destruct (2 <=? String.length s) eqn:Hlen; [|done]. apply Nat.leb_le in Hlen.
  assert (∀ q, q = squote ∨ q = dquote →
            HasPrefix s (String q "") && HasSuffix s (String q "") = false) as Hq.
  { intros q Hq. apply not_true_iff_false. intros [Hp Hsuf]%andb_prop.
    destruct (quoted_inv q s Hlen Hp Hsuf) as [inner Hin].
    by apply (Hs q inner). }
  by rewrite (Hq squote), (Hq dquote) by auto.
Qed.

End trimQuotes_facts.

(** C6. [trimQuotes] takes the outermost pair off a string that starts and
    ends with a single quote, or starts and ends with a double quote, and
    returns what is between them as it is; it returns every other string
    unchanged. *)
Theorem trimQuotes_outermost_pair_only (s : string) :
  (∀ q inner,
     q = secrethub.squote ∨ q = secrethub.dquote →
     s = String q (inner +:+ String q "") → secrethub.trimQuotes s = inner) ∧
  ((∀ q inner,
      q = secrethub.squote ∨ q = secrethub.dquote →
      s ≠ String q (inner +:+ String q "")) →
   secrethub.trimQuotes s = s).
Proof.
  split.
  - intros q inner Hq ->. by apply trimQuotes_quoted.
  - apply trimQuotes_unquoted.
Qed.

Lemma trimQuotes_outermost_pair_only_witness :
  secrethub.trimQuotes "''foo ''" = "'foo '" ∧
  secrethub.trimQuotes "'foo" = "'foo".
Proof.
  split.
  - apply (proj1 (trimQuotes_outermost_pair_only "''foo ''") secrethub.squote "'foo '").
    + by left.
    + reflexivity.
  - apply (proj2 (trimQuotes_outermost_pair_only "'foo")).
    intros q inner _ Heq.
    destruct inner as [|a [|b [|c [|d inner]]]]; cbv in Heq; congruence.
Defined.

(** ** The line dialect *)
#[local] Arguments SplitN_2 : simpl never.

Section parseEnv_facts.
Import secrethub.

(** The lines are parsed one after the other; an error is that of the
    first line that has one. *)
Lemma parseEnv_lines_app ls1 ls2 i :
  parseEnv_lines (ls1 ++ ls2) i =
  let* before := parseEnv_lines ls1 i in
  let* after := parseEnv_lines ls2 (i + Z.of_nat (length ls1))%Z in
  OK (before ++ after).
Proof.
  revert i. induction ls1 as [|line ls1 IH]; intros i; simpl.
  - rewrite Z.add_0_r. symmetry. apply bind_OK_id.
  - replace (i + Z.of_nat (S (length ls1)))%Z
      with ((i + 1) + Z.of_nat (length ls1))%Z by lia.
    destruct (_ || _); [apply IH|].
    destruct (SplitN_2 line "=") as [|k [|v parts]]; [done..|].
    rewrite IH. destruct (parseEnv_lines ls1 (i + 1)) as [before| |]; [|done..].
    simpl. by destruct (parseEnv_lines ls2 _).
Qed.

Lemma parseEnv_lines_cons line ls i :
  parseEnv_lines (line :: ls) i =
  if bool_decide (TrimLeft line whitespace = "")
     || HasPrefix (TrimLeft line whitespace) "#"
  then parseEnv_lines ls (i + 1)%Z
  else
    match SplitN_2 line "=" with
    | k :: v :: _ =>
        let* tail := parseEnv_lines ls (i + 1)%Z in
        OK (Envvar (Trim k whitespace) (trimQuotes (Trim v whitespace)) i :: tail)
    | _ => Err (ErrTemplate i ErrNotKeyValue)
    end.
Proof. reflexivity. Qed.

(** A line with an [=] is cut at its first [=]. *)
Lemma first_equals_sign line :
  Contains line "=" = true →
  ∃ k v, line = k +:+ "=" +:+ v ∧ Contains k "=" = false ∧
         SplitN_2 line "=" = [k; v].
Proof.
  unfold Contains, SplitN_2.
  destruct (Index line "=") as [m|] eqn:Hi; [intros _|done].
  destruct (Index_Some _ _ _ Hi) as [Hline Hlen].
  exists (slice_to m line), (slice_from (m + String.length "=") line).
  split_and!; [done| |done].
  destruct (Index (slice_to m line) "=") as [m'|] eqn:Hk; [exfalso|done].
  destruct (Index_Some _ _ _ Hk) as [Hk' Hlen']. rewrite Hk' in Hline.
  rewrite !str_app_assoc in Hline.
  pose proof (Index_first _ _ _ _ _ Hi Hline) as Hle.
  simpl String.length in Hlen, Hlen'.
  rewrite (length_slice_to m line) in Hlen' by lia.
  rewrite length_slice_to in Hle; [lia|].
  rewrite (length_slice_to m line) by lia. lia.
Qed.

End parseEnv_facts.

(** C7. In the line dialect a line that is neither blank nor a comment and
    holds an [=] is cut at its first [=]: wherever it stands among the
    lines, its entry has for key the text before that [=] and for value
    the text after it, both trimmed of spaces and tabs and the value then
    freed of its quotes, under the number of the line; the document
    [foo=foo=bar] gives the one entry [foo], [foo=bar]. *)
Theorem parseEnv_cuts_at_first_equals_sign :
  (∀ (ls1 : list string) (line : string) (ls2 : list string) (i : Z),
     TrimLeft line secrethub.whitespace ≠ "" →
     HasPrefix (TrimLeft line secrethub.whitespace) "#" = false →
     Contains line "=" = true →
     ∃ k v, line = k +:+ "=" +:+ v ∧ Contains k "=" = false ∧
       secrethub.parseEnv_lines (ls1 ++ line :: ls2) i =
       let* before := secrethub.parseEnv_lines ls1 i in
       let* after := secrethub.parseEnv_lines ls2 (i + Z.of_nat (length ls1) + 1)%Z in
       OK (before ++
           secrethub.Envvar (Trim k secrethub.whitespace)
             (secrethub.trimQuotes (Trim v secrethub.whitespace))
             (i + Z.of_nat (length ls1))%Z :: after)) ∧
  secrethub.parseEnv "foo=foo=bar" = OK [secrethub.Envvar "foo" "foo=bar" 1%Z].
Proof.
  split; [|reflexivity].
  intros ls1 line ls2 i Hblank Hcomment Heq.
  destruct (first_equals_sign line Heq) as (k & v & Hline & Hk & Hsplit).
  exists k, v. split_and!; [done..|].
  rewrite parseEnv_lines_app, parseEnv_lines_cons.
  rewrite bool_decide_eq_false_2, Hcomment, Hsplit by done. simpl.
  destruct (secrethub.parseEnv_lines ls1 i) as [before| |]; [|done..]. simpl.
  by destruct (secrethub.parseEnv_lines ls2 _).
Qed.

Lemma parseEnv_cuts_at_first_equals_sign_witness :
  ∃ k v, " a = b=c " = k +:+ "=" +:+ v ∧ Contains k "=" = false ∧
    secrethub.parseEnv_lines (["x=1"] ++ " a = b=c " :: []) 1%Z =
    let* before := secrethub.parseEnv_lines ["x=1"] 1%Z in
    let* after := secrethub.parseEnv_lines [] (1 + Z.of_nat 1 + 1)%Z in
    OK (before ++
        secrethub.Envvar (Trim k secrethub.whitespace)
          (secrethub.trimQuotes (Trim v secrethub.whitespace))
          (1 + Z.of_nat 1)%Z :: after).
Proof.
  apply (proj1 parseEnv_cuts_at_first_equals_sign ["x=1"] " a = b=c " [] 1%Z).
  - discriminate.
  - reflexivity.
  - reflexivity.
Defined.

(** ** The names of the template variables *)
Section NewEnv_facts.
Import secrethub.

Lemma first_invalid_Some ks :
  (∃ k, k ∈ ks ∧ valid_identifier k = false) →
  ∃ k, first_invalid ks = Some k ∧ k ∈ ks ∧ valid_identifier k = false.
Proof.
  induction ks as [|k ks IH]; intros (k' & Hin & Hk').
  - by apply elem_of_nil in Hin.
  - simpl. destruct (valid_identifier k) eqn:Hk.
    + destruct IH as (k1 & H1 & Hin1 & Hv1).
      { exists k'. split; [|done].
        apply elem_of_cons in Hin as [->|?]; [congruence|done]. }
      exists k1. split_and!; [done| |done]. apply elem_of_cons. by right.
    + exists k. split_and!; [done| |done]. apply elem_of_cons. by left.
Qed.

End NewEnv_facts.

(** C8. When some name of [templateVars] is no identifier, [NewEnv] fails
    with the invalid-template-variable error of such a name (the first
    that [range] meets), whatever the text to parse and whatever the
    parsers of the later steps are: nothing of [raw] is parsed before. *)
Theorem NewEnv_rejects_invalid_names
    (range_keys : gset string → list string)
    (templateVars : gmap string string) :
  (∀ X, range_keys X ≡ₚ elements X) →
  (∃ k, is_Some (templateVars !! k) ∧ secrethub.valid_identifier k = false) →
  ∃ k, is_Some (templateVars !! k) ∧ secrethub.valid_identifier k = false ∧
       ∀ (d : secrethub.dialects) (raw : string),
         secrethub.NewEnv range_keys d raw templateVars =
         Err (ErrInvalidTemplateVar k).
Proof.
  intros Hrange (k & Hk & Hinv).
  destruct (first_invalid_Some (range_keys (dom templateVars)))
    as (k1 & Hfirst & Hin & Hinv1).
  { exists k. split; [|done]. rewrite Hrange.
    by apply elem_of_elements, elem_of_dom. }
  exists k1. split_and!; [|done|].
  - rewrite Hrange in Hin. by apply elem_of_elements, elem_of_dom in Hin.
  - intros d raw. unfold secrethub.NewEnv. by rewrite Hfirst.
Qed.

Lemma NewEnv_rejects_invalid_names_witness :
  ∃ k, is_Some (({[ "0foo" := "value" ]} : gmap string string) !! k) ∧
       secrethub.valid_identifier k = false ∧
       ∀ (d : secrethub.dialects) (raw : string),
         secrethub.NewEnv elements d raw {[ "0foo" := "value" ]} =
         Err (ErrInvalidTemplateVar k).
Proof.
  apply (NewEnv_rejects_invalid_names elements {[ "0foo" := "value" ]}).
  - intros X. reflexivity.
  - exists "0foo". split; [by eexists|reflexivity].
Defined.

(** ** The cases of the specification and of the tests *)

(** With an empty start delimiter the empty text makes [parse] index an
    empty slice. *)
Example Parse_empty_start_delimiter_panics :
  Parse (NewParser "" "}}") "" = Panic.
Proof. reflexivity. Qed.

(** The two counterexamples, evaluated. *)
Example Parse_empty_start_delimiter :
  Parse (NewParser "" "}}") "a" = OK (Template [val "a"]).
Proof. reflexivity. Qed.

Example Parse_delimiters_of_spaces :
  Parse (NewParser " " " ") (" " +:+ spaces 1 +:+ " ") = Err (ErrTagNotClosed " ").
Proof. reflexivity. Qed.

(** Section 8 of the specification, "unresolved key failure". *)
Example Parse_baz :
  Parse (NewParser "{{" "}}") "baz={{path/to/secret}}" =
  OK (Template [val "baz="; key "path/to/secret"]).
Proof. reflexivity. Qed.

Example Inject_baz_unresolved :
  Inject (Template [val "baz="; key "path/to/secret"]) ∅ =
  Err (ErrKeyNotFound "path/to/secret").
Proof. reflexivity. Qed.

Example Inject_baz_resolved :
  Inject (Template [val "baz="; key "path/to/secret"])
         {[ "path/to/secret" := "val" ]} = OK "baz=val".
Proof. reflexivity. Qed.

Example Keys_baz :
  Keys elements (Template [val "baz="; key "path/to/secret"]) = ["path/to/secret"].
Proof. reflexivity. Qed.

(** [TestTrimQuotes]. *)
Example TestTrimQuotes_cases :
  Forall (λ c, secrethub.trimQuotes c.1 = c.2)
    [ ("foo", "foo");
      ("'foo'", "foo");
      (in_dquotes "foo", "foo");
      ("", "");
      ("''", "");
      (in_dquotes "", "");
      ("''foo''", "'foo'");
      (in_dquotes "'foo'", "'foo'");
      (in_dquotes (in_dquotes "foo"), in_dquotes "foo");
      ("'" +:+ in_dquotes "foo" +:+ "'", in_dquotes "foo");
      ("'foo", "'foo");
      (String secrethub.dquote "foo", String secrethub.dquote "foo");
      ("foo'", "foo'");
      ("foo" +:+ String secrethub.dquote "", "foo" +:+ String secrethub.dquote "");
      ("' foo'", " foo");
      (in_dquotes " foo", " foo");
      ("'foo '", "foo ");
      (in_dquotes "foo ", "foo ");
      (" 'foo'", " 'foo'");
      (" " +:+ in_dquotes "foo", " " +:+ in_dquotes "foo");
      ("'foo' ", "'foo' ");
      (in_dquotes "foo" +:+ " ", in_dquotes "foo" +:+ " ") ].
Proof. repeat constructor. Qed.

(** [TestParseEnv]. *)
Example TestParseEnv_cases :
  Forall (λ c, secrethub.parseEnv c.1 = c.2)
    [ (then_line "foo=bar" "baz={{path/to/secret}}",
       OK [secrethub.Envvar "foo" "bar" 1; secrethub.Envvar "baz" "{{path/to/secret}}" 2]);
      ("key = value", OK [secrethub.Envvar "key" "value" 1]);
      ("key    = value", OK [secrethub.Envvar "key" "value" 1]);
      (tabbed "key" (tabbed "=" "value"), OK [secrethub.Envvar "key" "value" 1]);
      ("key='value'", OK [secrethub.Envvar "key" "value" 1]);
      ("key=" +:+ in_dquotes "value", OK [secrethub.Envvar "key" "value" 1]);
      ("key = 'value'", OK [secrethub.Envvar "key" "value" 1]);
      (then_line "# database" (then_line "DB_USER = user" "DB_PASS = pass"),
       OK [secrethub.Envvar "DB_USER" "user" 2; secrethub.Envvar "DB_PASS" "pass" 3]);
      (then_line "    # database" (then_line "DB_USER = user" "DB_PASS = pass"),
       OK [secrethub.Envvar "DB_USER" "user" 2; secrethub.Envvar "DB_PASS" "pass" 3]);
      (then_line (tabbed "" "# database") (then_line "DB_USER = user" "DB_PASS = pass"),
       OK [secrethub.Envvar "DB_USER" "user" 2; secrethub.Envvar "DB_PASS" "pass" 3]);
      (then_line "foo=bar" (then_line "" "bar=baz"),
       OK [secrethub.Envvar "foo" "bar" 1; secrethub.Envvar "bar" "baz" 3]);
      (then_line "foo=bar" (then_line "    " "bar = baz"),
       OK [secrethub.Envvar "foo" "bar" 1; secrethub.Envvar "bar" "baz" 3]);
      ("foo=foo=bar", OK [secrethub.Envvar "foo" "foo=bar" 1]);
      ("foobar", Err (ErrTemplate 1 secrethub.ErrNotKeyValue)) ].
Proof. repeat constructor. Qed.

(** [TestRunCommand_Run]: the two names the tests reject. *)
Example TestRunCommand_Run_names :
  secrethub.valid_identifier "0foo" = false ∧
  secrethub.valid_identifier "foo@bar" = false ∧
  secrethub.valid_identifier "app" = true ∧
  secrethub.valid_identifier "_X9" = true.
Proof. repeat split. Qed.

(** [TestNewEnv], the cases in the line dialect. *)
Example TestNewEnv_success :
  secrethub.NewEnv elements line_dialect
    (then_line "foo=bar" "baz={{path/to/secret}}") ∅ =
  OK {[ "foo" := Template [val "bar"];
        "baz" := Template [key "path/to/secret"] ]}.
Proof. vm_compute. reflexivity. Qed.

Example TestNewEnv_success_with_vars :
  secrethub.NewEnv elements line_dialect
    (then_line "foo=bar" "baz={{${app}/db/pass}}")
    {[ "app" := "company/application" ]} =
  OK {[ "foo" := Template [val "bar"];
        "baz" := Template [key "company/application/db/pass"] ]}.
Proof. vm_compute. reflexivity. Qed.

Example TestNewEnv_env_error :
  secrethub.NewEnv elements line_dialect "foo={{path/to/secret" ∅ =
  Err (ErrTemplate 1 (ErrTagNotClosed "}}")).
Proof. vm_compute. reflexivity. Qed.

Example TestNewEnv_template_error :
  secrethub.NewEnv elements line_dialect "foo: bar: baz" ∅ =
  Err (ErrTemplate 1 secrethub.ErrNotKeyValue).
Proof. vm_compute. reflexivity. Qed.

(** * Further properties of the template package *)

(** ** The first placeholder of a text *)
Section first_group.
Variable p : parser.
Hypothesis start_nonempty : startDelim p ≠ "".
Hypothesis end_nonempty : endDelim p ≠ "".

(** A text that holds [sep] is cut at the first [sep]. *)
Lemma Contains_first s sep :
  Contains s sep = true → ∃ a b, s = a +:+ sep +:+ b ∧ only_at_end sep a.
Proof.
  unfold Contains. destruct (Index s sep) as [m|] eqn:Hi; [intros _|done].
  destruct (Index_Some _ _ _ Hi) as [Hs Hlen].
  pose proof (length_slice_to m s ltac:(lia)) as Ha.
  set (a := slice_to m s) in *. set (b := slice_from (m + String.length sep) s) in *.
  exists a, b. split; [done|]. intros u v Huv.
  assert (s = u +:+ sep +:+ (v +:+ b)) as Hs'.
  { rewrite Hs. by rewrite <- (str_app_assoc a), Huv, !str_app_assoc. }
  pose proof (Index_first _ _ _ _ _ Hi Hs') as Hle.
  apply (f_equal String.length) in Huv. rewrite !str_length_app in Huv.
  apply str_length_zero. lia.
Qed.

Lemma only_at_end_no_sep sep a : sep ≠ "" → only_at_end sep a → Contains a sep = false.
Proof.
  intros Hsep Ha. apply Contains_false. intros u v Heq.
  specialize (Ha u (v +:+ sep)). rewrite Heq, !str_app_assoc in Ha.
  specialize (Ha eq_refl). apply str_app_eq_nil in Ha as [_ ?]. done.
Qed.

(** The three ways [parse] can start on a text. *)
Lemma parse_first_group raw :
  (Contains raw (startDelim p) = false ∧ parse p raw = OK (lit_nodes raw)) ∨
  (∃ lit b, raw = lit +:+ startDelim p +:+ b ∧ only_at_end (startDelim p) lit ∧
     Contains b (endDelim p) = false ∧
     parse p raw = Err (ErrTagNotClosed (endDelim p))) ∨
  (∃ lit k r, raw = lit +:+ startDelim p +:+ k +:+ endDelim p +:+ r ∧
     only_at_end (startDelim p) lit ∧ only_at_end (endDelim p) k ∧
     parse p raw =
     let* tail := parse p r in OK (lit_nodes lit ++ key (Trim k " ") :: tail)).
Proof.
  destruct (Contains raw (startDelim p)) eqn:Hc.
  - right. destruct (Contains_first _ _ Hc) as (lit & b & -> & Hlit).
    destruct (Contains b (endDelim p)) eqn:Hb.
    + right. destruct (Contains_first _ _ Hb) as (k & r & -> & Hk).
      exists lit, k, r. split_and!; [done..|].
      rewrite parse_lit, parse_open by done.
      by destruct (parse p r).
    + left. exists lit, b. split_and!; [done..|].
      by rewrite parse_lit, parse_unclosed.
  - left. split; [done|]. by apply parse_no_start.
Qed.

(** What follows a first placeholder is shorter than the text. *)
Lemma first_group_shorter lit k r :
  String.length r <
  String.length (lit +:+ startDelim p +:+ k +:+ endDelim p +:+ r).
Proof.
  rewrite !str_length_app. destruct (startDelim p); [done|]. simpl. lia.
Qed.

(** A text that parses is closed placeholders, then text without start
    delimiter. *)
Lemma parse_OK_closed n raw ns :
  String.length raw < n → parse p raw = OK ns →
  ∃ pre ns' lit, raw = pre +:+ lit ∧ closed p pre ns' ∧
    Contains lit (startDelim p) = false ∧ ns = ns' ++ lit_nodes lit.
Proof.
  revert raw ns. induction n as [|n IH]; intros raw ns Hlen Hparse; [lia|].
  destruct (parse_first_group raw)
    as [(Hc & Hp)|[(lit & b & _ & _ & _ & Hp)|(lit & k & r & Hraw & Hlit & Hk & Hp)]].
  - exists "", [], raw. split_and!; [done|apply closed_nil|done|simpl; congruence].
  - congruence.
  - rewrite Hp in Hparse. destruct (parse p r) as [tail| |] eqn:Hr; [|done..].
    injection Hparse as <-.
    destruct (IH r tail) as (pre & ns' & lit' & Hr' & Hcl & Hlit' & ->); [|done|].
    { pose proof (first_group_shorter lit k r). rewrite <- Hraw in *. lia. }
    exists (lit +:+ startDelim p +:+ k +:+ endDelim p +:+ pre),
           (lit_nodes lit ++ key (Trim k " ") :: ns'), lit'.
    split_and!; [|by apply closed_group|done|].
    + by rewrite Hraw, Hr', !str_app_assoc.
    + by rewrite <- app_assoc.
Qed.

(** A text that does not parse has a start delimiter that nothing
    closes, after closed placeholders and literal text. *)
Lemma parse_Err_unclosed n raw e :
  String.length raw < n → parse p raw = Err e →
  e = ErrTagNotClosed (endDelim p) ∧
  ∃ pre ns lit rest, raw = pre +:+ lit +:+ startDelim p +:+ rest ∧
    closed p pre ns ∧ only_at_end (startDelim p) lit ∧
    Contains rest (endDelim p) = false.
Proof.
  revert raw. induction n as [|n IH]; intros raw Hlen Hparse; [lia|].
  destruct (parse_first_group raw)
    as [(Hc & Hp)|[(lit & b & Hraw & Hlit & Hb & Hp)|(lit & k & r & Hraw & Hlit & Hk & Hp)]].
  - congruence.
  - split; [congruence|]. exists "", [], lit, b.
    split_and!; [done|apply closed_nil|done..].
  - rewrite Hp in Hparse. destruct (parse p r) as [tail|e'|] eqn:Hr; [done| |done].
    injection Hparse as <-.
    destruct (IH r) as (He & pre & ns & lit' & rest & Hr' & Hcl & Hlit' & Hrest);
      [|done|].
    { pose proof (first_group_shorter lit k r). rewrite <- Hraw in *. lia. }
    split; [done|].
    exists (lit +:+ startDelim p +:+ k +:+ endDelim p +:+ pre),
           (lit_nodes lit ++ key (Trim k " ") :: ns), lit', rest.
    split_and!; [|by apply closed_group|done..].
    by rewrite Hraw, Hr', !str_app_assoc.
Qed.

End first_group.

(** X1. With non-empty delimiters, [Parse] succeeds exactly on the texts
    that are a sequence of closed placeholders followed by text without
    start delimiter, and its template has the nodes of those placeholders,
    then the literal of that text. *)
Theorem Parse_succeeds_iff_closed (p : parser) (raw : string) (t : template) :
  startDelim p ≠ "" → endDelim p ≠ "" →
  Parse p raw = OK t ↔
  ∃ pre ns lit, raw = pre +:+ lit ∧ closed p pre ns ∧
    Contains lit (startDelim p) = false ∧ nodes t = ns ++ lit_nodes lit.
Proof.
  intros Hstart Hend. unfold Parse. split.
  - destruct (parse p raw) as [ns| |] eqn:Hparse; [|done..]. intros [= <-].
    by apply (parse_OK_closed p Hstart Hend (S (String.length raw))); [lia|].
  - intros (pre & ns & lit & -> & Hcl & Hlit & Hns).
    rewrite (parse_closed p Hstart pre ns lit Hend Hcl), parse_no_start by done.
    destruct t as [nodes]. simpl in *. by rewrite Hns.
Qed.

Lemma Parse_succeeds_iff_closed_witness :
  Parse (NewParser "{{" "}}") "a={{ x }}!" =
    OK (Template [val "a="; key "x"; val "!"]) ↔
  ∃ pre ns lit, "a={{ x }}!" = pre +:+ lit ∧ closed (NewParser "{{" "}}") pre ns ∧
    Contains lit "{{" = false ∧ [val "a="; key "x"; val "!"] = ns ++ lit_nodes lit.
Proof.
  apply (Parse_succeeds_iff_closed (NewParser "{{" "}}") "a={{ x }}!"
           (Template [val "a="; key "x"; val "!"])); simpl; discriminate.
Defined.

(** X2. With non-empty delimiters, the one error [Parse] returns is the
    tag-not-closed error of its end delimiter, and it returns it exactly
    on the texts that have, after closed placeholders and literal text, a
    start delimiter that no end delimiter follows. *)
Theorem Parse_fails_iff_unclosed (p : parser) (raw : string) (e : error) :
  startDelim p ≠ "" → endDelim p ≠ "" →
  Parse p raw = Err e ↔
  e = ErrTagNotClosed (endDelim p) ∧
  ∃ pre ns lit rest, raw = pre +:+ lit +:+ startDelim p +:+ rest ∧
    closed p pre ns ∧ only_at_end (startDelim p) lit ∧
    Contains rest (endDelim p) = false.
Proof.
  intros Hstart Hend. unfold Parse. split.
  - destruct (parse p raw) as [ns|e'|] eqn:Hparse; [done| |done]. intros [= <-].
    by apply (parse_Err_unclosed p Hstart Hend (S (String.length raw))); [lia|].
  - intros (-> & pre & ns & lit & rest & -> & Hcl & Hlit & Hrest).
    rewrite (parse_closed p Hstart pre ns _ Hend Hcl).
    by rewrite parse_lit, parse_unclosed.
Qed.

Lemma Parse_fails_iff_unclosed_witness :
  Parse (NewParser "{{" "}}") "foo={{path/to/secret" = Err (ErrTagNotClosed "}}") ↔
  ErrTagNotClosed "}}" = ErrTagNotClosed "}}" ∧
  ∃ pre ns lit rest, "foo={{path/to/secret" = pre +:+ lit +:+ "{{" +:+ rest ∧
    closed (NewParser "{{" "}}") pre ns ∧ only_at_end "{{" lit ∧
    Contains rest "}}" = false.
Proof.
  apply (Parse_fails_iff_unclosed (NewParser "{{" "}}") "foo={{path/to/secret"
           (ErrTagNotClosed "}}")); simpl; discriminate.
Defined.

(** ** The shape of a parsed template *)
Section normal_facts.
Implicit Types (s t k : string).

Lemma TrimLeft_no_space_id s : (∀ t, s ≠ " " +:+ t) → TrimLeft s " " = s.
Proof.
  destruct s as [|c s]; [done|]. intros Hs. cbn [TrimLeft].
  rewrite in_cutset_space, bool_decide_eq_false_2; [done|].
  intros ->. by apply (Hs s).
Qed.

Lemma TrimRight_no_space_id s : (∀ t, s ≠ t +:+ " ") → TrimRight s " " = s.
Proof.
  induction s as [|c s IH]; [done|]. intros Hs. cbn [TrimRight].
  destruct s as [|d s].
  - simpl. destruct (decide (c = " "%char)) as [->|?]; [|done].
    by destruct (Hs "").
  - rewrite IH; [done|]. intros t Ht. apply (Hs (String c t)).
    by rewrite str_app_cons, <- Ht.
Qed.

(** Trimming twice is trimming once. *)
Lemma Trim_idempotent s : Trim (Trim s " ") " " = Trim s " ".
Proof.
  destruct (Trim_spaces_around s) as (_ & Hfirst & Hlast).
  unfold Trim at 1. by rewrite TrimRight_no_space_id, TrimLeft_no_space_id.
Qed.

Lemma Contains_inside a s b sep :
  Contains (a +:+ s +:+ b) sep = false → Contains s sep = false.
Proof.
  rewrite !Contains_false. intros H u v ->. apply (H (a +:+ u) (v +:+ b)).
  by rewrite !str_app_assoc.
Qed.

(** A trimmed key holds no end delimiter when the text it is trimmed from
    holds none. *)
Lemma Contains_Trim k sep : Contains k sep = false → Contains (Trim k " ") sep = false.
Proof.
  destruct (Trim_spaces_around k) as ((i & j & Hk) & _). intros Hc.
  rewrite Hk in Hc. by apply Contains_inside in Hc.
Qed.

Lemma normal_group (p : parser) lit k tail :
  startDelim p ≠ "" → endDelim p ≠ "" →
  only_at_end (startDelim p) lit → only_at_end (endDelim p) k →
  normal p tail → normal p (lit_nodes lit ++ key (Trim k " ") :: tail).
Proof.
  intros Hstart Hend Hlit Hk Htail.
  assert (normal p (key (Trim k " ") :: tail)) as Hkey.
  { simpl. split_and!; [apply Trim_idempotent| |done].
    by apply Contains_Trim, only_at_end_no_sep. }
  destruct lit as [|c lit]; [exact Hkey|].
  change (normal p (val (String c lit) :: key (Trim k " ") :: tail)).
  cbn [normal]. split_and!; [done| | |apply Hkey..].
  - by apply only_at_end_no_sep.
  - intros v' ns'' [=].
Qed.

Lemma parse_normal (p : parser) n raw ns :
  startDelim p ≠ "" → endDelim p ≠ "" →
  String.length raw < n → parse p raw = OK ns → normal p ns.
Proof.
  intros Hstart Hend. revert raw ns.
  induction n as [|n IH]; intros raw ns Hlen Hparse; [lia|].
  destruct (parse_first_group p Hstart Hend raw)
    as [(Hc & Hp)|[(lit & b & _ & _ & _ & Hp)|(lit & k & r & Hraw & Hlit & Hk & Hp)]].
  - rewrite Hp in Hparse. injection Hparse as <-.
    destruct raw as [|c raw]; [done|].
    change (normal p [val (String c raw)]). cbn [normal].
    split_and!; [done..| |done]. intros v' ns'' [=].
  - congruence.
  - rewrite Hp in Hparse. destruct (parse p r) as [tail| |] eqn:Hr; [|done..].
    injection Hparse as <-. apply normal_group; [done..|].
    apply (IH r); [|done].
    pose proof (first_group_shorter p Hstart lit k r). rewrite <- Hraw in *. lia.
Qed.

End normal_facts.

(** X3. The templates [Parse] makes with non-empty delimiters have one
    shape: a literal node is not empty, holds no start delimiter and is
    never followed by another literal node; a key has no space at either
    end and holds no end delimiter. *)
Theorem Parse_template_is_normal (p : parser) (raw : string) (t : template) :
  startDelim p ≠ "" → endDelim p ≠ "" →
  Parse p raw = OK t → normal p (nodes t).
Proof.
  intros Hstart Hend. unfold Parse.
  destruct (parse p raw) as [ns| |] eqn:Hparse; [|done..]. intros [= <-].
  by apply (parse_normal p (S (String.length raw)) raw); [..|lia|].
Qed.

Lemma Parse_template_is_normal_witness :
  normal (NewParser "{{" "}}") [val "a="; key "x y"; key "z"; val "!"].
Proof.
  apply (Parse_template_is_normal (NewParser "{{" "}}") "a={{  x y }}{{z}}!"
           (Template [val "a="; key "x y"; key "z"; val "!"]));
    [discriminate..|reflexivity].
Defined.

(** ** [Inject] and [Keys] together *)
Section inject_more.
Variable m : gmap string string.

Lemma all_bound_or_unbound ns :
  all_bound m ns ∨ ∃ s, key s ∈ ns ∧ m !! s = None.
Proof.
  induction ns as [|n ns [IH|(s & Hin & Hs)]].
  - left. apply all_bound_nil.
  - destruct n as [v|s].
    + left. apply all_bound_cons. split; [|done].
      intros s [[=]|[]%elem_of_nil]%elem_of_cons.
    + destruct (m !! s) as [d|] eqn:Hs.
      * left. apply all_bound_cons. split; [|done].
        intros s' [[= ->]|[]%elem_of_nil]%elem_of_cons. by eexists.
      * right. exists s. split; [|done]. apply elem_of_cons. by left.
  - right. exists s. split; [|done]. apply elem_of_cons. by right.
Qed.

Lemma Inject_loop_app ns1 ns2 res :
  Inject_loop (ns1 ++ ns2) m res =
  let* r := Inject_loop ns1 m res in Inject_loop ns2 m r.
Proof.
  revert res. induction ns1 as [|n ns1 IH]; intros res; simpl; [done|].
  by destruct (inject n m).
Qed.

(** The accumulator is a prefix of the result. *)
Lemma Inject_loop_res ns res :
  Inject_loop ns m res = let* out := Inject_loop ns m "" in OK (res +:+ out).
Proof.
  destruct (all_bound_or_unbound ns) as [Hb|Hex].
  - rewrite !Inject_loop_bound by done. simpl. by rewrite str_app_nil_l.
  - destruct (first_unbound m ns Hex) as (pre & s & post & -> & Hb & Hs).
    by rewrite !Inject_loop_unbound.
Qed.

End inject_more.

(** X4. [Inject] succeeds exactly when the map has a value for every key
    that [Keys] reports, whatever the order in which [Keys] reports
    them. *)
Theorem Inject_succeeds_iff_Keys_bound
    (range_keys : gset string → list string) (t : template)
    (m : gmap string string) :
  (∀ X, range_keys X ≡ₚ elements X) →
  (∃ out, Inject t m = OK out) ↔
  (∀ s, s ∈ Keys range_keys t → is_Some (m !! s)).
Proof.
  intros Hrange.
  assert (∀ s, s ∈ Keys range_keys t ↔ key s ∈ nodes t) as Hkeys.
  { intros s. unfold Keys.
    rewrite Hrange, elem_of_elements, elem_of_Keys_set. set_solver. }
  unfold Inject. split.
  - intros [out Hout] s Hs%Hkeys.
    destruct (all_bound_or_unbound m (nodes t)) as [Hb|Hex]; [by apply Hb|].
    destruct (first_unbound m _ Hex) as (pre & s' & post & Hns & Hb & Hs').
    rewrite Hns, Inject_loop_unbound in Hout by done. done.
  - intros Hall. rewrite Inject_loop_bound; [by eexists|].
    intros s Hs. by apply Hall, Hkeys.
Qed.

Lemma Inject_succeeds_iff_Keys_bound_witness :
  (∃ out, Inject (Template [val "baz="; key "path/to/secret"])
                 {[ "path/to/secret" := "val" ]} = OK out) ↔
  (∀ s, s ∈ Keys elements (Template [val "baz="; key "path/to/secret"]) →
        is_Some (({[ "path/to/secret" := "val" ]} : gmap string string) !! s)).
Proof.
  apply (Inject_succeeds_iff_Keys_bound elements
           (Template [val "baz="; key "path/to/secret"])
           {[ "path/to/secret" := "val" ]}).
  intros X. reflexivity.
Defined.

(** X5. [Inject] looks at the map only under the keys of the template:
    two maps that agree on them give the same result, value or error, and
    a result stays when bindings are added to the map. *)
Theorem Inject_depends_on_keys_only (t : template) (m m' : gmap string string) :
  ((∀ s, key s ∈ nodes t → m !! s = m' !! s) → Inject t m = Inject t m') ∧
  (∀ out, m ⊆ m' → Inject t m = OK out → Inject t m' = OK out).
Proof.
  assert (∀ ns res, (∀ s, key s ∈ ns → m !! s = m' !! s) →
            Inject_loop ns m res = Inject_loop ns m' res) as Hagree.
  { induction ns as [|n ns IH]; intros res Hm; [done|]. simpl.
    assert (inject n m = inject n m') as ->.
    { destruct n as [v|s]; [done|]. simpl. rewrite (Hm s); [done|].
      apply elem_of_cons. by left. }
    destruct (inject n m'); [|done..]. apply IH.
    intros s Hs. apply Hm. apply elem_of_cons. by right. }
  split; [apply Hagree|]. intros out Hsub Hout. rewrite <- Hout. symmetry.
  apply Hagree. intros s Hs.
  destruct (all_bound_or_unbound m (nodes t)) as [Hb|Hex].
  - destruct (Hb s Hs) as [d Hd]. rewrite Hd. symmetry.
    by apply (lookup_weaken m m').
  - destruct (first_unbound m _ Hex) as (pre & s' & post & Hns & Hb & Hs').
    unfold Inject in Hout. rewrite Hns, Inject_loop_unbound in Hout by done. done.
Qed.

Lemma Inject_depends_on_keys_only_witness :
  Inject (Template [val "baz="; key "a"]) {[ "a" := "1"; "b" := "2" ]} =
  Inject (Template [val "baz="; key "a"]) {[ "a" := "1"; "c" := "3" ]} ∧
  Inject (Template [val "baz="; key "a"]) {[ "b" := "2"; "a" := "1" ]} = OK "baz=1".
Proof.
  split.
  - apply (proj1 (Inject_depends_on_keys_only (Template [val "baz="; key "a"])
                    {[ "a" := "1"; "b" := "2" ]} {[ "a" := "1"; "c" := "3" ]})).
    intros s Hs. simpl in Hs. apply elem_of_cons in Hs as [[=]|Hs].
    apply list_elem_of_singleton in Hs as [= ->]. reflexivity.
  - apply (proj2 (Inject_depends_on_keys_only (Template [val "baz="; key "a"])
                    {[ "a" := "1" ]} {[ "b" := "2"; "a" := "1" ]})).
    + apply insert_subseteq. reflexivity.
    + reflexivity.
Defined.

(** X6. Injecting into two templates put one after the other gives the
    two results one after the other; an error of the first comes before
    an error of the second. *)
Theorem Inject_app (ns1 ns2 : list node) (m : gmap string string) :
  Inject (Template (ns1 ++ ns2)) m =
  let* out1 := Inject (Template ns1) m in
  let* out2 := Inject (Template ns2) m in
  OK (out1 +:+ out2).
Proof.
  unfold Inject. simpl. rewrite Inject_loop_app.
  destruct (Inject_loop ns1 m "") as [out1| |]; simpl; [|done..].
  by rewrite Inject_loop_res.
Qed.

(** ** [Parse] and [Inject] together *)

Lemma substituted_closed (p : parser) (m : gmap string string) text out :
  substituted p m text out →
  ∃ ns, closed p text ns ∧ ∀ res, Inject_loop ns m res = OK (res +:+ out).
Proof.
  induction 1 as [|lit k v rest out Hlit Hk Hv _ (ns & Hcl & IH)].
  - exists []. split; [apply closed_nil|]. intros res. simpl. by rewrite str_app_nil_r.
  - exists (lit_nodes lit ++ key (Trim k " ") :: ns).
    split; [by apply closed_group|]. intros res.
    rewrite Inject_loop_app.
    assert (Inject_loop (lit_nodes lit) m res = OK (res +:+ lit)) as ->.
    { destruct lit; [|done]. simpl. by rewrite str_app_nil_r. }
    simpl. rewrite Hv, IH. by rewrite !str_app_assoc.
Qed.

(** X7. With non-empty delimiters, parsing a text and injecting a map
    that binds the keys of its placeholders gives the text with every
    placeholder, from its start delimiter to its end delimiter, replaced
    by the value of its trimmed key; the text outside the placeholders is
    kept as it is, and the values are not parsed again. *)
Theorem Parse_then_Inject_substitutes (p : parser) (m : gmap string string)
    (text out lit : string) :
  startDelim p ≠ "" → endDelim p ≠ "" →
  substituted p m text out →
  Contains lit (startDelim p) = false →
  ∃ t, Parse p (text +:+ lit) = OK t ∧ Inject t m = OK (out +:+ lit).
Proof.
  intros Hstart Hend Hsub Hlit.
  destruct (substituted_closed p m text out Hsub) as (ns & Hcl & Hinj).
  exists (Template (ns ++ lit_nodes lit)). split.
  - unfold Parse.
    by rewrite (parse_closed p Hstart text ns lit Hend Hcl), parse_no_start.
  - unfold Inject. simpl. rewrite Inject_loop_app, Hinj. simpl.
    rewrite str_app_nil_l. destruct lit; [|done]. simpl. by rewrite str_app_nil_r.
Qed.

Lemma Parse_then_Inject_substitutes_witness :
  ∃ t, Parse (NewParser "{{" "}}") "user={{ db/user }};x" = OK t ∧
       Inject t {[ "db/user" := "{{admin}}" ]} = OK "user={{admin}};x".
Proof.
  apply (Parse_then_Inject_substitutes (NewParser "{{" "}}")
           {[ "db/user" := "{{admin}}" ]} "user={{ db/user }}" "user={{admin}}" ";x").
  - discriminate.
  - discriminate.
  - apply (substituted_group (NewParser "{{" "}}") {[ "db/user" := "{{admin}}" ]}
             "user=" " db/user " "{{admin}}" "" "").
    + apply only_at_end_Index. reflexivity.
    + apply only_at_end_Index. reflexivity.
    + reflexivity.
    + apply substituted_nil.
  - reflexivity.
Defined.

(** X8. After closed placeholders [Parse] goes on as on a text of its
    own: the template of the whole is the nodes of the placeholders, then
    the template of what follows, and an error or a panic of what follows
    is that of the whole. *)
Theorem Parse_after_closed (p : parser) (pre : string) (ns : list node)
    (s : string) :
  startDelim p ≠ "" → endDelim p ≠ "" →
  closed p pre ns →
  Parse p (pre +:+ s) = let* t := Parse p s in OK (Template (ns ++ nodes t)).
Proof.
  intros Hstart Hend Hcl. unfold Parse.
  rewrite (parse_closed p Hstart pre ns s Hend Hcl).
  by destruct (parse p s).
Qed.

Lemma Parse_after_closed_witness :
  Parse (NewParser "{{" "}}") ("a={{x}}" +:+ "b={{ y") =
  let* t := Parse (NewParser "{{" "}}") "b={{ y" in
  OK (Template ([val "a="; key "x"] ++ nodes t)).
Proof.
  apply (Parse_after_closed (NewParser "{{" "}}") "a={{x}}" [val "a="; key "x"]
           "b={{ y").
  - discriminate.
  - discriminate.
  - apply (closed_group (NewParser "{{" "}}") "a=" "x" "" []).
    + apply only_at_end_Index. reflexivity.
    + apply only_at_end_Index. reflexivity.
    + apply closed_nil.
Defined.

(** ** The empty start delimiter *)

Lemma parse_empty_start (p : parser) raw :
  startDelim p = "" → raw ≠ "" → parse p raw = OK (char_nodes raw).
Proof.
  intros Hstart. induction raw as [|c raw IH]; [done|]. intros _.
  rewrite parse_unfold. unfold parse_step. rewrite Hstart.
  destruct raw as [|d raw]; [done|].
  change (SplitN_2 (String c (String d raw)) "")
    with [String c ""; String d raw].
  simpl. rewrite str_app_nil_l, IH by done. done.
Qed.

(** X9. With the empty start delimiter [Parse] opens no placeholder and
    reports no error: a text that is not empty becomes one literal node
    per character, whatever end delimiters it holds, and the empty text
    makes [Parse] panic on the first part of an empty slice. *)
Theorem Parse_with_empty_start_delimiter (p : parser) :
  startDelim p = "" →
  Parse p "" = Panic ∧
  (∀ raw, raw ≠ "" → Parse p raw = OK (Template (char_nodes raw))).
Proof.
  intros Hstart. split.
  - unfold Parse. rewrite parse_unfold. unfold parse_step. by rewrite Hstart.
  - intros raw Hraw. unfold Parse. by rewrite parse_empty_start.
Qed.

Lemma Parse_with_empty_start_delimiter_witness :
  Parse (NewParser "" "}}") "" = Panic ∧
  (∀ raw, raw ≠ "" →
     Parse (NewParser "" "}}") raw = OK (Template (char_nodes raw))).
Proof.
  apply (Parse_with_empty_start_delimiter (NewParser "" "}}")). reflexivity.
Defined.

(** * Properties of the package [cli] *)

(** ** Characters of a string *)
Section char_facts.
Implicit Types (s t : string) (c d : ascii).

Lemma has_char_app c s t : has_char c (s +:+ t) = has_char c s || has_char c t.
Proof.
  induction s as [|d s IH]; [done|]. rewrite str_app_cons. simpl.
  by rewrite IH, orb_assoc.
Qed.

Lemma has_char_split c s :
  has_char c s = true → ∃ a b, s = a +:+ String c "" +:+ b ∧ has_char c a = false.
Proof.
  induction s as [|d s IH]; [done|]. simpl.
  destruct (decide (c = d)) as [->|Hne].
  - intros _. by exists "", s.
  - rewrite bool_decide_eq_false_2 by done. simpl. intros Hs.
    destruct (IH Hs) as (a & b & -> & Ha). exists (String d a), b.
    split; [done|]. simpl. by rewrite bool_decide_eq_false_2.
Qed.

(** [strings.Contains] with a separator of one character. *)
Lemma Contains_char s c : Contains s (String c "") = has_char c s.
Proof.
  destruct (has_char c s) eqn:Hc.
  - apply Contains_true. destruct (has_char_split c s Hc) as (a & b & -> & _). eauto.
  - apply Contains_false. intros a b ->.
    rewrite !has_char_app in Hc. simpl in Hc.
    rewrite bool_decide_eq_true_2, orb_true_r in Hc by done. done.
Qed.






End char_facts.





Example formatName_read_out_file :
  cli.formatName ascii_tables "read out-file" "secrethub" "_" [" "; "-"] =
  "SECRETHUB_READ_OUT_FILE".
Proof. reflexivity. Qed.

(** ** [strings.Split] at one character *)
Section split_char_facts.
Implicit Types (s k v : string) (c : ascii).

Lemma split_from_no_char c s :
  has_char c s = false → split_from s (String c "") 0 = [s].
Proof.
  induction s as [|d s IH]; [done|]. simpl.
  intros [Hd Hs]%orb_false_elim. apply bool_decide_eq_false_1 in Hd.
  rewrite decide_False by done. by rewrite IH.
Qed.

Lemma split_from_cons c k v :
  has_char c k = false →
  split_from (k +:+ String c "" +:+ v) (String c "") 0 =
  k :: split_from v (String c "") 0.
Proof.
  induction k as [|d k IH].
  - intros _. rewrite str_app_nil_l, str_app_cons, str_app_nil_l. simpl.
    by rewrite decide_True.
  - simpl. intros [Hd Hk]%orb_false_elim. apply bool_decide_eq_false_1 in Hd.
    rewrite decide_False by done. by rewrite (IH Hk).
Qed.

Lemma split_from_two_pieces c v :
  has_char c v = true →
  ∃ p1 p2 ps, split_from v (String c "") 0 = p1 :: p2 :: ps.
Proof.
  intros (a & b & -> & Ha)%has_char_split. rewrite split_from_cons by done.
  destruct (has_char c b) eqn:Hb.
  - destruct (has_char_split c b Hb) as (a' & b' & -> & Ha').
    rewrite split_from_cons by done. eauto.
  - rewrite split_from_no_char by done. eauto.
Qed.


End split_char_facts.

(** X11. [splitVar] cuts an entry, trimmed of the spaces around it, at
    its [=] sign only when it has exactly one: an entry without [=], and
    an entry whose value holds a second [=], give no key, no value and no
    match; with one [=], the match tells whether the key in upper case
    starts with the prefix in upper case followed by the separator. *)
Theorem splitVar_needs_one_equals_sign (u : unicode) (prefix sep entry : string) :
  (Contains (TrimSpace u entry) "=" = false →
   cli.splitVar u prefix sep entry = ("", "", false)) ∧
  (∀ k v, TrimSpace u entry = k +:+ "=" +:+ v → Contains k "=" = false →
     cli.splitVar u prefix sep entry =
     if Contains v "=" then ("", "", false)
     else (k, v, HasPrefix (ToUpper u k) (ToUpper u prefix +:+ sep))).
Proof.
  unfold cli.splitVar, Split. split.
  - rewrite Contains_char. intros Hc. by rewrite split_from_no_char.
  - intros k v -> Hk. rewrite !Contains_char in *.
    rewrite split_from_cons by done.
    destruct (has_char "=" v) eqn:Hv.
    + by destruct (split_from_two_pieces _ _ Hv) as (p1 & p2 & ps & ->).
    + by rewrite split_from_no_char.
Qed.

Lemma splitVar_needs_one_equals_sign_witness :
  cli.splitVar ascii_tables "secrethub" "_" " secrethub_token=a=b " = ("", "", false) ∧
  cli.splitVar ascii_tables "secrethub" "_" "PATH" = ("", "", false).
Proof.
  split.
  - apply (proj2 (splitVar_needs_one_equals_sign ascii_tables "secrethub" "_"
                    " secrethub_token=a=b ") "secrethub_token" "a=b");
      reflexivity.
  - apply (proj1 (splitVar_needs_one_equals_sign ascii_tables "secrethub" "_" "PATH")).
    reflexivity.
Defined.

(** ** The strict check of the environment *)
Section strict_facts.
Variable u : unicode.

Lemma CheckStrictEnv_cons a e environ :
  cli.CheckStrictEnv u (e :: environ) a =
  if passes u a e then cli.CheckStrictEnv u environ a
  else Some (cli.ErrNotRecognized
               (ToUpper u (cli.splitVar u (cli.name a) (cli.separator a) e).1.1)).
Proof.
  unfold cli.CheckStrictEnv, passes. simpl.
  destruct (cli.splitVar u (cli.name a) (cli.separator a) e) as [[k v] []];
    simpl; [|done].
  by destruct (bool_decide _ || _).
Qed.

Lemma CheckStrictEnv_None a environ :
  cli.CheckStrictEnv u environ a = None ↔ ∀ e, e ∈ environ → passes u a e = true.
Proof.
  induction environ as [|e environ IH].
  - split; [|done]. intros _ e []%elem_of_nil.
  - rewrite CheckStrictEnv_cons. destruct (passes u a e) eqn:He.
    + rewrite IH. split.
      * intros H e' [->|?]%elem_of_cons; [done|by apply H].
      * intros H e' He'. apply H. apply elem_of_cons. by right.
    + split; [done|]. intros H. rewrite H in He; [done|].
      apply elem_of_cons. by left.
Qed.

Lemma CheckStrictEnv_Some a environ err :
  cli.CheckStrictEnv u environ a = Some err →
  ∃ pre e post, environ = pre ++ e :: post ∧
    (∀ e', e' ∈ pre → passes u a e' = true) ∧ passes u a e = false ∧
    err = cli.ErrNotRecognized
            (ToUpper u (cli.splitVar u (cli.name a) (cli.separator a) e).1.1).
Proof.
  induction environ as [|e environ IH]; [done|].
  rewrite CheckStrictEnv_cons. destruct (passes u a e) eqn:He.
  - intros (pre & e' & post & -> & Hpre & He' & ->)%IH.
    exists (e :: pre), e', post. split_and!; [done| |done..].
    intros e'' [->|?]%elem_of_cons; [done|by apply Hpre].
  - intros [= <-]. exists [], e, environ. split_and!; [done| |done..].
    intros e' []%elem_of_nil.
Qed.


End strict_facts.

(** X12. [CheckStrictEnv] returns no error exactly when every entry of
    the environment passes: it does not match the prefix of the
    application, or its key in upper case is a known or an extra
    variable; otherwise the error names the key, in upper case, of the
    first entry that does not pass. *)
Theorem CheckStrictEnv_first_unrecognized (u : unicode) (environ : list string)
    (a : cli.App) :
  (cli.CheckStrictEnv u environ a = None ↔
   ∀ e, e ∈ environ → passes u a e = true) ∧
  (∀ err, cli.CheckStrictEnv u environ a = Some err →
     ∃ pre e post, environ = pre ++ e :: post ∧
       (∀ e', e' ∈ pre → passes u a e' = true) ∧ passes u a e = false ∧
       err = cli.ErrNotRecognized
               (ToUpper u (cli.splitVar u (cli.name a) (cli.separator a) e).1.1)).
Proof.
  split; [apply CheckStrictEnv_None|]. intros err. apply CheckStrictEnv_Some.
Qed.

Lemma CheckStrictEnv_first_unrecognized_witness :
  ∃ pre e post,
    ["HOME=/root"; "secrethub_foo=1"; "SECRETHUB_BAR=2"] = pre ++ e :: post ∧
    (∀ e', e' ∈ pre → passes ascii_tables (cli.NewApp ascii_tables "secrethub") e' = true) ∧
    passes ascii_tables (cli.NewApp ascii_tables "secrethub") e = false ∧
    errors_New "environment variable set, but not recognized: SECRETHUB_FOO" =
    cli.ErrNotRecognized
      (ToUpper ascii_tables
         (cli.splitVar ascii_tables (cli.name (cli.NewApp ascii_tables "secrethub"))
            (cli.separator (cli.NewApp ascii_tables "secrethub")) e).1.1).
Proof.
  apply (proj2 (CheckStrictEnv_first_unrecognized ascii_tables
                  ["HOME=/root"; "secrethub_foo=1"; "SECRETHUB_BAR=2"]
                  (cli.NewApp ascii_tables "secrethub"))).
  reflexivity.
Defined.

(** ** Flags and their variables *)
Section flag_facts.
Variable u : unicode.
Variable getenv : string → string.

Lemma App_Flag_envVar a name :
  cli.envVar (cli.App_Flag u getenv a name).2 =
  ToUpper u (cli.formatName u name (cli.name a) (cli.separator a) (cli.delimiters a)).
Proof. done. Qed.

Lemma App_Flag_known a name :
  (∀ s, ToUpper u (ToUpper u s) = ToUpper u s) →
  cli.knownEnvVars (cli.App_Flag u getenv a name).1 =
  {[ cli.envVar (cli.App_Flag u getenv a name).2 ]} ∪ cli.knownEnvVars a.
Proof.
  intros Hidem. unfold cli.App_Flag, cli.Envar. simpl.
  set (x := cli.formatName u name (cli.name a) (cli.separator a) (cli.delimiters a)).
  case_decide; simpl; rewrite Hidem; apply set_eq; intros k;
    destruct (decide (k = ToUpper u x)); set_solver.
Qed.


End flag_facts.


Lemma ascii_ToUpper_idempotent s :
  ToUpper ascii_tables (ToUpper ascii_tables s) = ToUpper ascii_tables s.
Proof.
  induction s as [|c s IH]; [done|]. simpl. rewrite IH. f_equal.
  destruct c as [[] [] [] [] [] [] [] []]; reflexivity.
Qed.


(** X14. When upper case is idempotent, every variable an application
    knows is written in upper case: it is so after [NewApp], and
    [registerEnvVar], [unregisterEnvVar], [ExtraEnvVarFunc], [Flag.Envar],
    [Flag.NoEnvar], [App.Flag] and [CommandClause.Flag] keep it so. *)
Theorem known_variables_are_upper_case (u : unicode) (getenv : string → string) :
  (∀ s, ToUpper u (ToUpper u s) = ToUpper u s) →
  (∀ name, known_in_upper_case u (cli.NewApp u name)) ∧
  (∀ a, known_in_upper_case u a →
     (∀ name, known_in_upper_case u (cli.registerEnvVar u a name)) ∧
     (∀ name, known_in_upper_case u (cli.unregisterEnvVar u a name)) ∧
     (∀ f, known_in_upper_case u (cli.ExtraEnvVarFunc a f)) ∧
     (∀ f name, known_in_upper_case u (cli.Envar u getenv a f name).1) ∧
     (∀ f, known_in_upper_case u (cli.NoEnvar u a f).1) ∧
     (∀ name, known_in_upper_case u (cli.App_Flag u getenv a name).1) ∧
     (∀ fullCommand name,
        known_in_upper_case u (cli.CommandClause_Flag u fullCommand a name).1)).
Proof.
  intros Hidem.
  assert (∀ a name, known_in_upper_case u a →
            known_in_upper_case u (cli.registerEnvVar u a name)) as Hreg.
  { intros a name Ha k. unfold cli.registerEnvVar. simpl.
    intros [->%elem_of_singleton|Hk]%elem_of_union; [apply Hidem|by apply Ha]. }
  assert (∀ a name, known_in_upper_case u a →
            known_in_upper_case u (cli.unregisterEnvVar u a name)) as Hunreg.
  { intros a name Ha k. unfold cli.unregisterEnvVar. simpl.
    intros [Hk _]%elem_of_difference. by apply Ha. }
  assert (∀ a f, known_in_upper_case u a →
            known_in_upper_case u
              (if decide (cli.envVar f = "") then a
               else cli.unregisterEnvVar u a (cli.envVar f))) as Hif.
  { intros a f Ha. case_decide; [done|by apply Hunreg]. }
  split.
  - intros name k. unfold cli.NewApp. simpl. intros []%elem_of_empty.
  - intros a Ha. split_and!.
    + intros name. by apply Hreg.
    + intros name. by apply Hunreg.
    + intros [f|]; [|done]. apply Ha.
    + intros f name. unfold cli.Envar. simpl. by apply Hreg, Hif.
    + intros f. unfold cli.NoEnvar. simpl. by apply Hif.
    + intros name. unfold cli.App_Flag, cli.Envar. simpl fst.
      apply Hreg. case_decide; [by apply Hreg|]. by apply Hunreg, Hreg.
    + intros fullCommand name. unfold cli.CommandClause_Flag. simpl. by apply Hreg.
Qed.

Lemma known_variables_are_upper_case_witness :
  ToUpper ascii_tables "SECRETHUB_CONFIG_DIR" = "SECRETHUB_CONFIG_DIR".
Proof.
  apply (proj1 (proj2 (proj2 (proj2 (proj2 (proj2
           (proj2 (known_variables_are_upper_case ascii_tables (λ _, "")
                     ascii_ToUpper_idempotent)
              (cli.NewApp ascii_tables "secrethub")
              (proj1 (known_variables_are_upper_case ascii_tables (λ _, "")
                        ascii_ToUpper_idempotent) "secrethub"))))))) "config-dir").
  refine (bool_decide_unpack _ _). vm_compute. exact I.
Defined.

(** X15. A flag made by [App.Flag] takes for default value the value of
    its variable in the environment, and [Default] replaces it only when
    it is empty; a flag made by [CommandClause.Flag] does not read the
    environment, and [Default] always gives it its value. *)
Theorem Default_yields_to_the_environment (u : unicode) (getenv : string → string)
    (a : cli.App) (name val fullCommand : string) :
  cli.DefValue (cli.Default (cli.App_Flag u getenv a name).2 val) =
    (if decide (getenv (cli.envVar (cli.App_Flag u getenv a name).2) = "")
     then val else getenv (cli.envVar (cli.App_Flag u getenv a name).2)) ∧
  cli.DefValue (cli.Default (cli.CommandClause_Flag u fullCommand a name).2 val) = val.
Proof.
  split.
  - unfold cli.App_Flag, cli.Envar, cli.Default. simpl. by case_decide.
  - done.
Qed.

(** X16. [NoEnvar] on a flag just made by [App.Flag] takes the variable
    of the flag out of the known variables, also when the application
    knew it before the flag was made; but a flag whose variable is the
    empty name leaves the empty name among the known variables. *)
Theorem NoEnvar_after_App_Flag (u : unicode) (getenv : string → string)
    (a : cli.App) (name : string) :
  (∀ s, ToUpper u (ToUpper u s) = ToUpper u s) →
  cli.envVar (cli.NoEnvar u (cli.App_Flag u getenv a name).1
                (cli.App_Flag u getenv a name).2).2 = "" ∧
  (cli.envVar (cli.App_Flag u getenv a name).2 ≠ "" →
   cli.knownEnvVars (cli.NoEnvar u (cli.App_Flag u getenv a name).1
                       (cli.App_Flag u getenv a name).2).1 =
   cli.knownEnvVars a ∖ {[ cli.envVar (cli.App_Flag u getenv a name).2 ]}) ∧
  (cli.envVar (cli.App_Flag u getenv a name).2 = "" →
   cli.knownEnvVars (cli.NoEnvar u (cli.App_Flag u getenv a name).1
                       (cli.App_Flag u getenv a name).2).1 =
   {[ "" ]} ∪ cli.knownEnvVars a).
Proof.
  intros Hidem. pose proof (App_Flag_known u getenv a name Hidem) as Hknown.
  pose proof (App_Flag_envVar u getenv a name) as Henv.
  set (a' := (cli.App_Flag u getenv a name).1) in *.
  set (f := (cli.App_Flag u getenv a name).2) in *.
  assert (ToUpper u (cli.envVar f) = cli.envVar f) as Hup by (by rewrite Henv, Hidem).
  split_and!; [done| |].
  - intros Hne. unfold cli.NoEnvar. rewrite decide_False by done.
    cbn [fst cli.unregisterEnvVar cli.set_knownEnvVars cli.knownEnvVars].
    rewrite Hknown, Hup. set_solver.
  - intros Heq. unfold cli.NoEnvar. rewrite decide_True by done.
    cbn [fst]. by rewrite Hknown, Heq.
Qed.

Lemma NoEnvar_after_App_Flag_witness :
  cli.knownEnvVars
    (cli.NoEnvar ascii_tables
       (cli.App_Flag ascii_tables (λ _, "")
          (cli.registerEnvVar ascii_tables (cli.NewApp ascii_tables "secrethub")
             "secrethub_config_dir") "config-dir").1
       (cli.App_Flag ascii_tables (λ _, "")
          (cli.registerEnvVar ascii_tables (cli.NewApp ascii_tables "secrethub")
             "secrethub_config_dir") "config-dir").2).1 =
  cli.knownEnvVars
    (cli.registerEnvVar ascii_tables (cli.NewApp ascii_tables "secrethub")
       "secrethub_config_dir")
  ∖ {[ "SECRETHUB_CONFIG_DIR" ]}.
Proof.
  apply (NoEnvar_after_App_Flag ascii_tables (λ _, "")
           (cli.registerEnvVar ascii_tables (cli.NewApp ascii_tables "secrethub")
              "secrethub_config_dir") "config-dir" ascii_ToUpper_idempotent).
  discriminate.
Defined.

(** ** Extra variables *)
Lemma isExtraEnvVar_loop_app checks checks' key :
  cli.isExtraEnvVar_loop (checks ++ checks') key =
  cli.isExtraEnvVar_loop checks key || cli.isExtraEnvVar_loop checks' key.
Proof.
  induction checks as [|check checks IH]; [done|]. simpl.
  by destruct (check key).
Qed.

(** X17. [ExtraEnvVarFunc] only widens what the application recognizes:
    afterwards a key is an extra variable when it was one before or the
    new function accepts it, with the functions given earlier asked
    first; a [nil] function changes nothing; and an environment that
    passed the strict check still passes it. *)
Theorem ExtraEnvVarFunc_only_widens (u : unicode) (a : cli.App)
    (f : option (string → bool)) (environ : list string) :
  cli.CheckStrictEnv u environ a = None →
  cli.CheckStrictEnv u environ (cli.ExtraEnvVarFunc a f) = None ∧
  ∀ key, cli.isExtraEnvVar (cli.ExtraEnvVarFunc a f) key =
         cli.isExtraEnvVar a key || (if f is Some check then check key else false).
Proof.
  assert (∀ key, cli.isExtraEnvVar (cli.ExtraEnvVarFunc a f) key =
            cli.isExtraEnvVar a key || (if f is Some check then check key else false))
    as Hextra.
  { intros key. destruct f as [check|]; unfold cli.isExtraEnvVar; simpl.
    - rewrite isExtraEnvVar_loop_app. simpl. by destruct (check key).
    - by rewrite orb_false_r. }
  intros Hall. split; [|done]. revert Hall. rewrite !CheckStrictEnv_None.
  intros Hall e He. specialize (Hall e He). revert Hall. unfold passes.
  assert (cli.name (cli.ExtraEnvVarFunc a f) = cli.name a) as ->
    by (by destruct f).
  assert (cli.separator (cli.ExtraEnvVarFunc a f) = cli.separator a) as ->
    by (by destruct f).
  assert (cli.knownEnvVars (cli.ExtraEnvVarFunc a f) = cli.knownEnvVars a) as ->
    by (by destruct f).
  destruct (cli.splitVar u (cli.name a) (cli.separator a) e) as [[k v] m].
  rewrite Hextra. intros [H| ->]%orb_prop; [by rewrite H|].
  by rewrite !orb_true_r.
Qed.

Lemma ExtraEnvVarFunc_only_widens_witness :
  cli.CheckStrictEnv ascii_tables ["HOME=/root"; "SECRETHUB_VAR_X=1"]
    (cli.ExtraEnvVarFunc
       (cli.ExtraEnvVarFunc (cli.NewApp ascii_tables "secrethub")
          (Some (λ key, HasPrefix key "SECRETHUB_VAR_")))
       (Some (λ key, HasPrefix key "SECRETHUB_TPL_"))) = None.
Proof.
  apply (ExtraEnvVarFunc_only_widens ascii_tables
           (cli.ExtraEnvVarFunc (cli.NewApp ascii_tables "secrethub")
              (Some (λ key, HasPrefix key "SECRETHUB_VAR_")))
           (Some (λ key, HasPrefix key "SECRETHUB_TPL_"))
           ["HOME=/root"; "SECRETHUB_VAR_X=1"]).
  reflexivity.
Defined.
